(** * SimpleITK-Notebooks: sphere fit, registration errors and
      explore-then-refine initialisation

    A shallow embedding of the numerical glue code of three notebooks:

    - the least-squares sphere fit of the "Segmentation: Thresholding and
      Edge Detection" notebook (cell "Setup and solve linear equation
      system");
    - [registration_errors] as used by the "Registration Errors" and
      "Semiautomatic Homework" notebooks;
    - the orientation search and the exploration/exploitation cells of
      the "Registration Initialization" notebook.

    Python floats are idealised as real numbers ([R]); the one place where
    the source can leave the reals, [np.sqrt] of a negative number, is kept
    as an explicit not-a-number value.  Where the rounding of binary64
    arithmetic decides a property (the radius of the sphere fit), the
    rounded operations are described in [Binary64].  Calls into SimpleITK
    and scipy ([MetricEvaluate], [Execute], [linalg.lstsq]) are
    parameters. *)

From Stdlib Require Import Reals Lra Psatz.
From Stdlib Require Import Sorting.Sorted Sorting.Permutation.
From stdpp Require Import base list strings.

Local Open Scope R_scope.

(** ** Python exceptions and fallible computations *)

Inductive exn : Type :=
  | ValueError
  | IndexError
  | LinAlgError
  | RuntimeError
  | DimensionMismatch.

(** A computation either raises ([inl]) or returns ([inr]). *)
Definition result (A : Type) : Type := (exn + A)%type.

Definition raise {A : Type} (e : exn) : result A := inl e.
Definition ret {A : Type} (a : A) : result A := inr a.

Definition bind {A B : Type} (m : result A) (k : A -> result B) : result B :=
  match m with
  | inl e => inl e
  | inr a => k a
  end.

Notation "x <-! m ;; k" := (bind m (fun x => k))
  (at level 100, m at next level, right associativity).

Definition succeeds {A : Type} (m : result A) : Prop := exists a, m = inr a.
Definition raises {A : Type} (m : result A) : Prop := exists e, m = inl e.

(** ** Numbers *)

(** Sum of a list of reals ([np.sum], [sum]). *)
Fixpoint Rsum (l : list R) : R :=
  match l with
  | [] => 0
  | x :: l' => x + Rsum l'
  end.

(** A floating-point result that is either a number or not-a-number. *)
Inductive npfloat : Type :=
  | Num (r : R)
  | NaN.

(** [np.sqrt]: the square root of a non-negative number, [nan] for a
    negative one (numpy emits a [RuntimeWarning] through the [warnings]
    module and returns [nan]; no exception is raised). *)
Definition np_sqrt (x : R) : npfloat :=
  if Rlt_dec x 0 then NaN else Num (sqrt x).

(** ** Least-squares sphere fit *)

Module SphereFit.

(** A physical point, as returned by [TransformIndexToPhysicalPoint] for a
    3D image. *)
Record point3 : Type := P3 { px : R; py : R; pz : R }.

(** A row of the m x 4 array [A]. *)
Record row4 : Type := Row { a0 : R; a1 : R; a2 : R; a3 : R }.

(** The solution vector [res] ([res[0:3]] is the centre, [res[3]] is k). *)
Record vec4 : Type := V4 { x0 : R; x1 : R; x2 : R; x3 : R }.

(** [linalg.norm(point)] *)
Definition norm (p : point3) : R :=
  sqrt (px p * px p + py p * py p + pz p * pz p).

(** [A[row, 0:3] = v]: columns 0..2 are overwritten, column 3 is kept. *)
Definition set_cols03 (v : point3) (r : row4) : row4 :=
  Row (px v) (py v) (pz v) (a3 r).

(** [-2 * np.array(point)] *)
Definition scale_m2 (p : point3) : point3 :=
  P3 (-2 * px p) (-2 * py p) (-2 * pz p).

(** [np.ones((m, 4))] and [np.zeros(m)] *)
Definition ones (m : nat) : list row4 := replicate m (Row 1 1 1 1).
Definition zeros (m : nat) : list R := replicate m 0.

(** The body of [for row, point in enumerate(physical_points)], threading
    the row index and the two arrays. *)
Fixpoint fill (row : nat) (points : list point3) (A : list row4) (b : list R)
  : list row4 * list R :=
  match points with
  | [] => (A, b)
  | point :: rest =>
      fill (S row) rest
        (alter (set_cols03 (scale_m2 point)) row A)
        (<[row := - (norm point) ^ 2]> b)
  end.

(** The system set up by the cell. *)
Definition setup (physical_points : list point3) : list row4 * list R :=
  fill 0 physical_points
    (ones (length physical_points)) (zeros (length physical_points)).

Definition dot (r : row4) (x : vec4) : R :=
  a0 r * x0 x + a1 r * x1 x + a2 r * x2 x + a3 r * x3 x.

(** Squared residual norm ||A x - b||^2. *)
Definition sq_residual (A : list row4) (b : list R) (x : vec4) : R :=
  Rsum (zip_with (fun r bi => (dot r x - bi) ^ 2) A b).

(** The contract of [linalg.lstsq] on a successful return: the returned
    vector minimises the squared residual. *)
Definition is_lstsq (A : list row4) (b : list R) (x : vec4) : Prop :=
  forall y, sq_residual A b x <= sq_residual A b y.

(** Full column rank: the homogeneous system has only the zero solution. *)
Definition full_rank (A : list row4) : Prop :=
  forall x, Forall (fun r => dot r x = 0) A -> x = V4 0 0 0 0.

(** What the cell reports. *)
Record report : Type := Report { location : R * R * R; radius : npfloat }.

(** [linalg.norm(res[0:3]) ** 2] *)
Definition centre_norm_sq (res : vec4) : R :=
  (sqrt (x0 res * x0 res + x1 res * x1 res + x2 res * x2 res)) ^ 2.

(** The two [print] calls: the centre is [res[0:3]], the radius is
    [np.sqrt(linalg.norm(res[0:3])**2 - res[3])]. *)
Definition report_of (res : vec4) : report :=
  Report (x0 res, x1 res, x2 res) (np_sqrt (centre_norm_sq res - x3 res)).

(** The whole cell, for a given least-squares solver.  An exception of the
    solver propagates; nothing else in the cell raises. *)
Definition sphere_fit
    (lstsq : list row4 -> list R -> result vec4)
    (physical_points : list point3) : result report :=
  let '(A, b) := setup physical_points in
  res <-! lstsq A b ;;
  ret (report_of res).

(** The row and the right-hand side the formulation gives for a point:
    [-2 p, 1] and [-p.p]. *)
Definition row_of (p : point3) : row4 := Row (-2 * px p) (-2 * py p) (-2 * pz p) 1.
Definition rhs_of (p : point3) : R := - (px p * px p + py p * py p + pz p * pz p).

Definition vsub (x y : vec4) : vec4 :=
  V4 (x0 x - x0 y) (x1 x - x1 y) (x2 x - x2 y) (x3 x - x3 y).

(** The algebraic distance of a point to the sphere encoded by [x]. *)
Definition algebraic_distance (x : vec4) (p : point3) : R :=
  (px p * px p + py p * py p + pz p * pz p)
  - 2 * (px p * x0 x + py p * x1 x + pz p * x2 x) + x3 x.

(** The point lies on the sphere of centre [c] and radius [r]. *)
Definition on_sphere (c : point3) (r : R) (p : point3) : Prop :=
  (px p - px c) ^ 2 + (py p - py c) ^ 2 + (pz p - pz c) ^ 2 = r ^ 2.

End SphereFit.

(** ** The radius computation in binary64 arithmetic *)

Module Binary64.

Import SphereFit.

(** The finite values of IEEE 754 binary64, the format of Python's
    [float] and of numpy's [float64]: m * 2^e with |m| < 2^53 and
    -1074 <= e <= 971. *)
Definition binary64 (x : R) : Prop :=
  exists m e : Z,
    (Z.abs m < 2 ^ 53)%Z /\ (-1074 <= e <= 971)%Z /\ x = IZR m * powerRZ 2 e.

(** [y] is a binary64 value nearest to [x]: what a correctly rounded
    operation (here [-] and [np.sqrt]) returns for the exact result [x].
    The tie rule is left open, so that every rounding the hardware can
    make is covered; a result that overflows to infinity is not
    described. *)
Definition nearest (x y : R) : Prop :=
  binary64 y /\ forall z, binary64 z -> Rabs (y - x) <= Rabs (z - x).

(** [y] is a binary64 value within a relative error of 2^-40 of [x], a
    bound that the library routines [linalg.norm] and [**] meet with a
    wide margin (their error is a few units in the 53rd bit). *)
Definition accurate (x y : R) : Prop :=
  binary64 y /\ Rabs (y - x) <= Rabs x / 2 ^ 40.

(** [np.sqrt(linalg.norm(res[0:3])**2 - res[3])] as the cell evaluates
    it: the norm [n], its square [sq], the difference [d] and the root,
    each a binary64 value; a negative difference gives nan. *)
Definition radius_binary64 (res : vec4) (rad : npfloat) : Prop :=
  exists n sq d,
    accurate (sqrt (x0 res * x0 res + x1 res * x1 res + x2 res * x2 res)) n /\
    accurate (n ^ 2) sq /\
    nearest (sq - x3 res) d /\
    match rad with
    | NaN => d < 0
    | Num s => 0 <= d /\ nearest (sqrt d) s
    end.

(** What the two [print] calls show for a solver answer [res], an array
    of four binary64 values. *)
Definition report_binary64 (res : vec4) (rep : report) : Prop :=
  binary64 (x0 res) /\ binary64 (x1 res) /\ binary64 (x2 res) /\ binary64 (x3 res) /\
  location rep = (x0 res, x1 res, x2 res) /\
  radius_binary64 res (radius rep).

(** The report gives the centre [c] within [tol_c] in every coordinate
    and a radius that is a number within [tol_r] of [r]. *)
Definition recovers (c : point3) (r tol_c tol_r : R) (rep : report) : Prop :=
  Rabs (fst (fst (location rep)) - px c) <= tol_c /\
  Rabs (snd (fst (location rep)) - py c) <= tol_c /\
  Rabs (snd (location rep) - pz c) <= tol_c /\
  exists s, radius rep = Num s /\ Rabs (s - r) <= tol_r.

End Binary64.

(** ** Paired-point registration errors *)

Module RegistrationErrors.

(** An N-dimensional coordinate. *)
Definition point : Type := list R.

(** Modelled from the spec: the Euclidean distance between the transform's
    predicted position and the observed corresponding point (the body of
    [registration_errors] is in [registration_utilities], which is not
    among the sources). *)
Definition euclidean_distance (p q : point) : R :=
  sqrt (Rsum (zip_with (fun a b => (a - b) ^ 2) p q)).

(** Modelled from the spec: the mean of the residual distances. *)
Definition mean (l : list R) : R := Rsum l / INR (length l).

(** Modelled from the spec: the standard deviation of the residual
    distances (of the whole population, as [np.std] computes it). *)
Definition std (l : list R) : R :=
  sqrt (mean (map (fun x => (x - mean l) ^ 2) l)).

(** Modelled from the spec: the minimum and the maximum of the residual
    distances.  The specification gives no value for an empty sequence;
    0 stands in for it here. *)
Definition list_min (l : list R) : R :=
  match l with
  | [] => 0
  | x :: l' => fold_left Rmin l' x
  end.

Definition list_max (l : list R) : R :=
  match l with
  | [] => 0
  | x :: l' => fold_left Rmax l' x
  end.

(** The per-point residual distances. *)
Definition residuals (tx : point -> point) (source_points target_points : list point)
  : list R :=
  zip_with (fun p q => euclidean_distance (tx p) q) source_points target_points.

(** Modelled from the spec: [registration_errors(transform, source_points,
    target_points) -> (mean, std, min, max, per_point_errors)], failing
    with [DimensionMismatch] when the two sequences differ in length.  The
    function is defined in [registration_utilities], which is not among
    the sources; only its call sites are. *)
Definition registration_errors
    (tx : point -> point) (source_points target_points : list point)
  : result (R * R * R * R * list R) :=
  if Nat.eqb (length source_points) (length target_points) then
    let errors := residuals tx source_points target_points in
    ret (mean errors, std errors, list_min errors, list_max errors, errors)
  else raise DimensionMismatch.

End RegistrationErrors.

(** ** Registration initialisation: orientation search and
       exploration/exploitation *)

Module Initialization.

(** Rotation angles (x, y, z). *)
Definition orientation : Type := (R * R * R)%type.

(** [sitk.Euler3DTransform]: three angles, a translation and the fixed
    centre of rotation. *)
Record Euler3DTransform : Type := Euler3D {
  rotation : orientation;
  translation : R * R * R;
  center : R * R * R
}.

(** The parameter vector [angle_x, angle_y, angle_z, t_x, t_y, t_z]. *)
Definition parameters : Type := (orientation * (R * R * R))%type.

Definition SetRotation (t : Euler3DTransform) (o : orientation) : Euler3DTransform :=
  Euler3D o (translation t) (center t).

Definition SetParameters (t : Euler3DTransform) (p : parameters) : Euler3DTransform :=
  Euler3D (fst p) (snd p) (center t).

(** [CenteredTransformInitializer(fixed, moving, Euler3DTransform(),
    GEOMETRY)]: no rotation; translation and centre come from the image
    geometry. *)
Definition CenteredTransformInitializer (t c : R * R * R) : Euler3DTransform :=
  Euler3D (0, 0, 0) t c.

(** [min(iterable, key=...)]: the first item of least key; [ValueError] on
    an empty iterable. *)
Fixpoint min_from {A : Type} (key : A -> R) (best : A) (l : list A) : A :=
  match l with
  | [] => best
  | x :: l' => min_from key (if Rlt_dec (key x) (key best) then x else best) l'
  end.

Definition py_min {A : Type} (key : A -> R) (l : list A) : result A :=
  match l with
  | [] => raise ValueError
  | x :: l' => ret (min_from key x l')
  end.

(** Monadic left fold: a [for] loop whose body may raise. *)
Fixpoint foldM {S A : Type} (body : S -> A -> result S) (l : list A) (s : S)
  : result S :=
  match l with
  | [] => ret s
  | a :: l' => s' <-! body s a ;; foldM body l' s'
  end.

(** *** Sequential orientation search (cell "MetricEvaluate") *)

(** State of the loop: [initial_transform], [best_orientation],
    [best_similarity_value]. *)
Definition search_state : Type := (Euler3DTransform * orientation * R)%type.

Definition search_body (MetricEvaluate : Euler3DTransform -> result R)
    (st : search_state) (item : string * orientation) : result search_state :=
  let '(initial_transform, best_orientation, best_similarity_value) := st in
  let initial_transform := SetRotation initial_transform (snd item) in
  current_similarity_value <-! MetricEvaluate initial_transform ;;
  if Rlt_dec current_similarity_value best_similarity_value
  then ret (initial_transform, snd item, current_similarity_value)
  else ret (initial_transform, best_orientation, best_similarity_value).

Definition sequential_search (MetricEvaluate : Euler3DTransform -> result R)
    (t c : R * R * R) (all_orientations : list (string * orientation))
  : result search_state :=
  let initial_transform := CenteredTransformInitializer t c in
  best_similarity_value <-! MetricEvaluate initial_transform ;;
  foldM (search_body MetricEvaluate) all_orientations
    (initial_transform, (0, 0, 0), best_similarity_value).

Definition best_orientation_of (st : search_state) : orientation := snd (fst st).

(** *** Parallel orientation search (cell "Why loop if you can process in
        parallel") *)

Definition evaluate_metric (MetricEvaluate : Euler3DTransform -> result R)
    (current_rotation : orientation) (tx : Euler3DTransform) : result R :=
  let current_transform := SetRotation tx current_rotation in
  MetricEvaluate current_transform.

(** [ThreadPool.map]: the tasks complete in some order (the schedule, a
    list of task indices); each result is stored in the slot of its task;
    the first failure to complete is kept and raised once every task is
    done. *)
Definition pool_state (B : Type) : Type := (list (option B) * option exn)%type.

Definition pool_step {A B : Type} (f : A -> result B) (l : list A)
    (st : pool_state B) (i : nat) : pool_state B :=
  match l !! i with
  | None => st
  | Some a =>
      match f a with
      | inr v => (<[i := Some v]> (fst st), snd st)
      | inl e => (fst st, match snd st with None => Some e | Some e0 => Some e0 end)
      end
  end.

(** [None]: some task never ran, [map] does not return. *)
Definition pool_map {A B : Type} (f : A -> result B) (l : list A)
    (schedule : list nat) : option (result (list B)) :=
  let st := fold_left (pool_step f l) schedule (replicate (length l) None, None) in
  if forallb (fun i => bool_decide (i ∈ schedule)) (seq 0 (length l)) then
    match snd st with
    | Some e => Some (raise e)
    | None => fmap ret (mapM (fun slot => slot) (fst st))
    end
  else None.

(** [np.argmin]: the index of the first occurrence of the minimum. *)
Fixpoint argmin_from (best_i : nat) (best_v : R) (i : nat) (l : list R) : nat :=
  match l with
  | [] => best_i
  | x :: l' =>
      if Rlt_dec x best_v then argmin_from i x (S i) l'
      else argmin_from best_i best_v (S i) l'
  end.

Definition np_argmin (l : list R) : result nat :=
  match l with
  | [] => raise ValueError
  | x :: l' => ret (argmin_from 0 x 1 l')
  end.

Definition orientations_list_of (all_orientations : list (string * orientation))
  : list orientation :=
  (0, 0, 0) :: map snd all_orientations.

Definition parallel_search (MetricEvaluate : Euler3DTransform -> result R)
    (tx : Euler3DTransform) (all_orientations : list (string * orientation))
    (schedule : list nat) : option (result orientation) :=
  let orientations_list := orientations_list_of all_orientations in
  all_metric_values_r ← pool_map
    (fun o => evaluate_metric MetricEvaluate o tx) orientations_list schedule ;
  Some (all_metric_values <-! all_metric_values_r ;;
        i <-! np_argmin all_metric_values ;;
        match orientations_list !! i with
        | Some o => ret o
        | None => raise IndexError
        end).

(** The selection both searches are meant to compute: the first candidate
    of least value. *)
Definition pick (best : orientation * R) (l : list (orientation * R))
  : orientation * R :=
  min_from snd best l.

(** The exploration as the specification words it: an evaluation that
    fails is left out of the ranking, the others are ranked. *)
Definition exploration_excluding_failures
    (MetricEvaluate : Euler3DTransform -> result R)
    (tx : Euler3DTransform) (all_orientations : list (string * orientation))
  : result orientation :=
  let evaluated :=
    omap (fun o => match evaluate_metric MetricEvaluate o tx with
                   | inr v => Some (o, v)
                   | inl _ => None
                   end) (orientations_list_of all_orientations) in
  match evaluated with
  | [] => raise ValueError
  | ov :: rest => ret (fst (pick ov rest))
  end.

(** *** Exploration step (observers of the exhaustive optimizer) *)

Definition start_observer (_ : list (R * parameters)) : list (R * parameters) := [].

Definition iteration_observer (GetMetricValue : R) (GetOptimizerPosition : parameters)
    (metricvalue_parameters_list : list (R * parameters)) : list (R * parameters) :=
  metricvalue_parameters_list ++ [(GetMetricValue, GetOptimizerPosition)].

(** [Execute] with the exhaustive optimizer: one start event, then one
    iteration event per grid position. *)
Definition exploration_step (metric : parameters -> R) (grid : list parameters)
    (metricvalue_parameters_list : list (R * parameters)) : list (R * parameters) :=
  fold_left (fun l position => iteration_observer (metric position) position l)
    grid (start_observer metricvalue_parameters_list).

(** *** Exploitation step *)

(** [multires_registration]: the library's [Execute] and [GetMetricValue]
    under the fixed configuration; the initial transform is not modified
    ([inPlace=False]).  Here [Execute] returns; the case in which it
    throws is [multires_registration_exn] below. *)
Definition multires_registration
    (Execute : Euler3DTransform -> Euler3DTransform * R)
    (initial_transform : Euler3DTransform) : Euler3DTransform * R :=
  let '(final_transform, metric_value) := Execute initial_transform in
  (final_transform, metric_value).

(** [list.sort(key=...)]: a stable sort, ascending by key. *)
Fixpoint insert_by {A : Type} (key : A -> R) (x : A) (l : list A) : list A :=
  match l with
  | [] => [x]
  | y :: l' =>
      if Rle_dec (key x) (key y) then x :: y :: l' else y :: insert_by key x l'
  end.

(** Ascending order of the keys. *)
Definition key_le {A : Type} (key : A -> R) (a b : A) : Prop := key a <= key b.

Fixpoint sort_by {A : Type} (key : A -> R) (l : list A) : list A :=
  match l with
  | [] => []
  | x :: l' => insert_by key x (sort_by key l')
  end.

Definition k_most_promising_of (metricvalue_parameters_list : list (R * parameters))
  : nat :=
  Nat.min 3 (length metricvalue_parameters_list).

(** The [for] loop: state is [initial_transform] and [final_results]. *)
Definition exploit_body (Execute : Euler3DTransform -> Euler3DTransform * R)
    (st : Euler3DTransform * list (Euler3DTransform * R))
    (item : R * parameters) : Euler3DTransform * list (Euler3DTransform * R) :=
  let '(initial_transform, final_results) := st in
  let initial_transform := SetParameters initial_transform (snd item) in
  (initial_transform,
   final_results ++ [multires_registration Execute initial_transform]).

(** The refinement started from one candidate. *)
Definition refined_from (Execute : Euler3DTransform -> Euler3DTransform * R)
    (initial_transform : Euler3DTransform) (item : R * parameters)
  : Euler3DTransform * R :=
  multires_registration Execute (SetParameters initial_transform (snd item)).

Definition final_results_of (Execute : Euler3DTransform -> Euler3DTransform * R)
    (metricvalue_parameters_list : list (R * parameters))
    (initial_transform : Euler3DTransform) : list (Euler3DTransform * R) :=
  let metricvalue_parameters_list := sort_by fst metricvalue_parameters_list in
  let k_most_promising := k_most_promising_of metricvalue_parameters_list in
  snd (fold_left (exploit_body Execute)
         (take k_most_promising metricvalue_parameters_list)
         (initial_transform, [])).

Definition exploitation_step (Execute : Euler3DTransform -> Euler3DTransform * R)
    (metricvalue_parameters_list : list (R * parameters))
    (initial_transform : Euler3DTransform) : result (Euler3DTransform * R) :=
  py_min snd (final_results_of Execute metricvalue_parameters_list initial_transform).

End Initialization.

(** ** Concrete inputs used in the examples below *)

Module Examples.

Import SphereFit RegistrationErrors Initialization.

(** Four points on the sphere of centre (1, 2, 3) and radius 2. *)
Definition sphere_points : list point3 :=
  [P3 3 2 3; P3 (-1) 2 3; P3 1 4 3; P3 1 2 5].

(** A solver returning the exact solution for [sphere_points]. *)
Definition sphere_lstsq (A : list row4) (b : list R) : result vec4 :=
  ret (V4 1 2 3 10).

(** Four points, with binary64 coordinates, on the sphere of radius 1
    whose centre lies 2^28 along each axis. *)
Definition far_centre : point3 := P3 268435456 268435456 268435456.

Definition far_points : list point3 :=
  [P3 268435457 268435456 268435456; P3 268435455 268435456 268435456;
   P3 268435456 268435457 268435456; P3 268435456 268435456 268435457].

(** Two 2D fiducials and a translation by (1, 0). *)
Definition shift_x (p : point) : point :=
  match p with
  | x :: rest => (x + 1) :: rest
  | [] => []
  end.

Definition fixed_fiducials : list point := [[0; 0]; [1; 1]].
Definition moving_fiducials : list point := [[1; 0]; [5; 5]].

(** An initial transform and the orientations of the notebook. *)
Definition example_tx : Euler3DTransform := Euler3D (0, 0, 0) (1, 2, 3) (4, 5, 6).

Definition example_orientations : list (string * orientation) :=
  [("x=0, y=0, z=180"%string, (0, 0, PI));
   ("x=0, y=180, z=0"%string, (0, PI, 0))].

(** A metric that decreases with the rotation about y. *)
Definition example_metric (t : Euler3DTransform) : result R :=
  ret (5 - snd (fst (rotation t))).

(** The same metric, failing for every transform rotated about z. *)
Definition failing_metric (t : Euler3DTransform) : result R :=
  if Rlt_dec 0 (snd (rotation t)) then raise RuntimeError
  else ret (5 - snd (fst (rotation t))).

(** Collected (metric value, parameters) pairs and a refinement that
    leaves the transform as it is. *)
Definition two_candidates : list (R * parameters) :=
  [(3, ((0, 0, 0), (0, 0, 0))); (1, ((0, PI, 0), (0, 0, 0)))].

Definition one_candidate : list (R * parameters) :=
  [(3, ((0, 0, 0), (0, 0, 0)))].

Definition example_execute (t : Euler3DTransform) : Euler3DTransform * R :=
  (t, 7 - snd (fst (rotation t))).

(** A registration that throws when started from a transform rotated
    about y. *)
Definition throwing_execute (t : Euler3DTransform) : result (Euler3DTransform * R) :=
  if Rlt_dec 0 (snd (fst (rotation t))) then raise RuntimeError
  else ret (t, 7 - snd (fst (rotation t))).

End Examples.

(** ** Further cells of the notebooks *)

Module SphereFitMore.

Import SphereFit.

(** The squared distance of a point to the centre [res[0:3]]. *)
Definition sq_distance_to_centre (res : vec4) (p : point3) : R :=
  (px p - x0 res) ^ 2 + (py p - x1 res) ^ 2 + (pz p - x2 res) ^ 2.



End SphereFitMore.

Module InitializationMore.

Import Initialization.

(** The cell after the orientation search:
    [initial_transform.SetRotation] with the best orientation, followed by
    [multires_registration(fixed_image, moving_image, initial_transform)],
    run on the state the search left behind. *)
Definition register_from_best
    (Execute : Euler3DTransform -> Euler3DTransform * R)
    (st : search_state) : Euler3DTransform * R :=
  let '(initial_transform, best_orientation, _) := st in
  let initial_transform := SetRotation initial_transform best_orientation in
  multires_registration Execute initial_transform.

(** The last orientation tried by the loop, if any. *)
Definition last_orientation (all_orientations : list (string * orientation))
  : orientation :=
  List.last (map snd all_orientations) (0, 0, 0).

(** *** The exploitation step when the registration may throw

    [registration_method.Execute] can throw (the notebook lists the
    library's "All samples map outside moving image buffer." among the
    errors it allows); neither [multires_registration] nor the loop of the
    exploitation cell catches anything.  The same cell, with an [Execute]
    that may raise: *)
Definition multires_registration_exn
    (Execute : Euler3DTransform -> result (Euler3DTransform * R))
    (initial_transform : Euler3DTransform) : result (Euler3DTransform * R) :=
  r <-! Execute initial_transform ;;
  let '(final_transform, metric_value) := r in
  ret (final_transform, metric_value).

Definition exploit_body_exn
    (Execute : Euler3DTransform -> result (Euler3DTransform * R))
    (st : Euler3DTransform * list (Euler3DTransform * R))
    (item : R * parameters)
  : result (Euler3DTransform * list (Euler3DTransform * R)) :=
  let '(initial_transform, final_results) := st in
  let initial_transform := SetParameters initial_transform (snd item) in
  r <-! multires_registration_exn Execute initial_transform ;;
  ret (initial_transform, final_results ++ [r]).

Definition exploitation_step_exn
    (Execute : Euler3DTransform -> result (Euler3DTransform * R))
    (metricvalue_parameters_list : list (R * parameters))
    (initial_transform : Euler3DTransform) : result (Euler3DTransform * R) :=
  let metricvalue_parameters_list := sort_by fst metricvalue_parameters_list in
  let k_most_promising := k_most_promising_of metricvalue_parameters_list in
  st <-! foldM (exploit_body_exn Execute)
           (take k_most_promising metricvalue_parameters_list)
           (initial_transform, []) ;;
  py_min snd (snd st).

(** The transform a refinement starts from: [initial_transform] after
    [SetParameters] with the candidate's parameters. *)
Definition start_of (initial_transform : Euler3DTransform) (item : R * parameters)
  : Euler3DTransform :=
  SetParameters initial_transform (snd item).

End InitializationMore.

Module Geometry.

Definition vec3 : Type := (R * R * R)%type.

Definition vadd (u v : vec3) : vec3 :=
  let '(u0, u1, u2) := u in let '(v0, v1, v2) := v in (u0 + v0, u1 + v1, u2 + v2).

Definition vminus (u v : vec3) : vec3 :=
  let '(u0, u1, u2) := u in let '(v0, v1, v2) := v in (u0 - v0, u1 - v1, u2 - v2).

(** Component-wise product and quotient. *)
Definition vmul (u v : vec3) : vec3 :=
  let '(u0, u1, u2) := u in let '(v0, v1, v2) := v in (u0 * v0, u1 * v1, u2 * v2).

Definition vdiv (u v : vec3) : vec3 :=
  let '(u0, u1, u2) := u in let '(v0, v1, v2) := v in (u0 / v0, u1 / v1, u2 / v2).

(** A 3x3 matrix, by rows. *)
Definition mat3 : Type := (vec3 * vec3 * vec3)%type.

Definition vdot (u v : vec3) : R :=
  let '(u0, u1, u2) := u in let '(v0, v1, v2) := v in u0 * v0 + u1 * v1 + u2 * v2.

Definition mat_vec (m : mat3) (v : vec3) : vec3 :=
  let '(r0, r1, r2) := m in (vdot r0 v, vdot r1 v, vdot r2 v).

Definition identity3 : mat3 := ((1, 0, 0), (0, 1, 0), (0, 0, 1)).

(** The geometry of an image: origin, spacing, direction cosines, size. *)
Record image_geometry : Type := Geometry {
  origin : vec3;
  spacing : vec3;
  direction : mat3;
  size : Z * Z * Z
}.

(** [TransformContinuousIndexToPhysicalPoint] and
    [TransformIndexToPhysicalPoint]: origin + direction * (spacing . index). *)
Definition TransformContinuousIndexToPhysicalPoint (g : image_geometry) (ci : vec3)
  : vec3 :=
  vadd (origin g) (mat_vec (direction g) (vmul (spacing g) ci)).

Definition index_to_vec (i : Z * Z * Z) : vec3 :=
  let '(i0, i1, i2) := i in (IZR i0, IZR i1, IZR i2).

Definition TransformIndexToPhysicalPoint (g : image_geometry) (i : Z * Z * Z) : vec3 :=
  TransformContinuousIndexToPhysicalPoint g (index_to_vec i).

(** [[(sz - 1) / 2 for sz in image.GetSize()]] mapped to physical space:
    the centre used as centre of rotation in both notebooks. *)
Definition image_centre (g : image_geometry) : vec3 :=
  let '(s0, s1, s2) := size g in
  TransformContinuousIndexToPhysicalPoint g
    ((IZR s0 - 1) / 2, (IZR s1 - 1) / 2, (IZR s2 - 1) / 2).

Definition midpoint (u v : vec3) : vec3 :=
  let '(u0, u1, u2) := u in let '(v0, v1, v2) := v in
  ((u0 + v0) / 2, (u1 + v1) / 2, (u2 + v2) / 2).

End Geometry.

Module PointLists.

(** [[c for p in points for c in p]] *)
Definition flatten (points : list (list R)) : list R := concat points.

(** [for i, p in enumerate(l): l[i] = f(p)].  The iterator reads the list
    as it is when the element is asked for; it stops when the index
    reaches the end. *)
Fixpoint enumerate_update {A : Type} (f : A -> A) (fuel i : nat) (l : list A)
  : list A :=
  match fuel with
  | O => l
  | S fuel' =>
      match l !! i with
      | None => l
      | Some p => enumerate_update f fuel' (S i) (<[i := f p]> l)
      end
  end.

End PointLists.

Module Display.

(** [round(x)]: the nearest integer, a tie going to the even one. *)
Definition py_round (x : R) : Z :=
  let n := Zfloor x in
  let fr := x - IZR n in
  if Rlt_dec fr (1 / 2) then n
  else if Rlt_dec (1 / 2) fr then (n + 1)%Z
  else if Z.even n then n else (n + 1)%Z.

(** [int(x)] of a float: truncation toward zero. *)
Definition py_int (x : R) : Z :=
  if Rle_dec 0 x then Zfloor x else (- Zfloor (- x))%Z.

(** Image Display: [z = int(mr_image.GetDepth() / 2)] (and likewise for
    the width). *)
Definition middle_index (depth : Z) : Z := py_int (IZR depth / 2).

(** The number of indices selected by [a[start:stop]] on an axis of
    length [n], for non-negative bounds. *)
Definition py_slice_len (start stop n : Z) : Z :=
  Z.max 0 (Z.min stop n - Z.min start n).

(** Image Display, "Resample slice to isotropic": the new spacing and
    size.  [round] already returns an [int], so the [int] around it
    changes nothing.  The quotient and the product are taken over the
    reals. *)
Definition isotropic_grid (original_size : Z * Z) (original_spacing : R * R)
  : (R * R) * (Z * Z) :=
  let min_spacing := Rmin (fst original_spacing) (snd original_spacing) in
  let new_spacing := (min_spacing, min_spacing) in
  let new_size :=
    (py_round (IZR (fst original_size) * (fst original_spacing / min_spacing)),
     py_round (IZR (snd original_size) * (snd original_spacing / min_spacing))) in
  (new_spacing, new_size).

End Display.

Module Segmentation.

Import Geometry Display.

Definition index3 : Type := (Z * Z * Z)%type.

Definition index_add (i a : index3) : index3 :=
  let '(i0, i1, i2) := i in let '(a0, a1, a2) := a in (i0 + a0, i1 + a1, i2 + a2)%Z.

(** [Dinv] is the inverse of the direction matrix [D]. *)
Definition inverse_of (Dinv D : mat3) : Prop :=
  forall v, mat_vec Dinv (mat_vec D v) = v.

(** The library rounds a continuous index to the nearest integer, half
    way cases up. *)
Definition itk_round (x : R) : Z := Zfloor (x + 1 / 2).

(** [TransformPhysicalPointToIndex]: the continuous index
    (direction^-1 (p - origin)) / spacing, rounded. *)
Definition TransformPhysicalPointToIndex (g : image_geometry) (Dinv : mat3) (p : vec3)
  : index3 :=
  let '(c0, c1, c2) := vdiv (mat_vec Dinv (vminus p (origin g))) (spacing g) in
  (itk_round c0, itk_round c1, itk_round c2).

(** A region of interest: ((x0, x1), (y0, y1), (z0, z1)). *)
Definition roi_t : Type := ((Z * Z) * (Z * Z) * (Z * Z))%type.

Definition roi_start (roi : roi_t) : index3 :=
  let '((a0, _), (a1, _), (a2, _)) := roi in (a0, a1, a2).

(** [image[x0:x1, y0:y1, z0:z1]], for a region that starts inside the
    image: the cropped image keeps spacing and direction, and its origin
    is the physical position of the first voxel kept. *)
Definition crop_geometry (g : image_geometry) (roi : roi_t) : image_geometry :=
  let '((a0, b0), (a1, b1), (a2, b2)) := roi in
  let '(s0, s1, s2) := size g in
  Geometry (TransformIndexToPhysicalPoint g (a0, a1, a2)) (spacing g) (direction g)
    (py_slice_len a0 b0 s0, py_slice_len a1 b1 s1, py_slice_len a2 b2 s2).

Definition positive_spacing (g : image_geometry) : Prop :=
  let '(s0, s1, s2) := spacing g in 0 < s0 /\ 0 < s1 /\ 0 < s2.

Definition in_bounds (sz : index3) (i : index3) : bool :=
  let '(s0, s1, s2) := sz in let '(i0, i1, i2) := i in
  (0 <=? i0)%Z && (i0 <? s0)%Z && (0 <=? i1)%Z && (i1 <? s1)%Z
  && (0 <=? i2)%Z && (i2 <? s2)%Z.

(** The values of an array [arr[z][y][x]] at which [arr == 1.0], in the
    order [np.where] lists them. *)
Definition hits (arr : list (list (list R))) : list (nat * nat * nat) :=
  concat (imap (fun z plane =>
    concat (imap (fun y row =>
      concat (imap (fun x v => if Req_dec_T v 1 then [(z, y, x)] else []) row))
      plane)) arr).

(** [np.where(arr == 1.0)]: one index array per axis. *)
Definition np_where3 (arr : list (list (list R))) : list nat * list nat * list nat :=
  (map (fun h => fst (fst h)) (hits arr),
   map (fun h => snd (fst h)) (hits arr),
   map snd (hits arr)).

(** [zip(a, b, c)] *)
Definition zip3 {A B C : Type} (a : list A) (b : list B) (c : list C)
  : list (A * B * C) :=
  zip_with (fun ab c => (fst ab, snd ab, c)) (zip a b) c.

(** The comprehension of the cell: for [z, y, x] in the zipped index
    arrays, the physical point of the index [x, y, z]. *)
Definition edge_indices (arr : list (list (list R))) : list index3 :=
  let '(e0, e1, e2) := np_where3 arr in
  map (fun zyx => let '(z, y, x) := zyx in (Z.of_nat x, Z.of_nat y, Z.of_nat z))
    (zip3 e0 e1 e2).

Definition physical_points_of (edges : image_geometry) (arr : list (list (list R)))
  : list vec3 :=
  map (TransformIndexToPhysicalPoint edges) (edge_indices arr).

(** A label image: a value per index; [image[index] = value] fails
    outside the image. *)
Definition label_image : Type := index3 -> Z.

Definition blank : label_image := fun _ => 0%Z.

Definition index3_eqb (i j : index3) : bool :=
  let '(i0, i1, i2) := i in let '(j0, j1, j2) := j in
  (i0 =? j0)%Z && (i1 =? j1)%Z && (i2 =? j2)%Z.

(** A negative index counts from the end of its axis, as in
    [Image.__setitem__]. *)
Definition wrap_index (sz : index3) (i : index3) : index3 :=
  let '(s0, s1, s2) := sz in let '(i0, i1, i2) := i in
  ((if (i0 <? 0)%Z then s0 + i0 else i0)%Z,
   (if (i1 <? 0)%Z then s1 + i1 else i1)%Z,
   (if (i2 <? 0)%Z then s2 + i2 else i2)%Z).

(** [image[i] = v]: [IndexError] when the index, counted from the end if
    negative, is outside the image. *)
Definition set_pixel (sz : index3) (image : label_image) (i : index3) (v : Z)
  : result label_image :=
  let i := wrap_index sz i in
  if in_bounds sz i
  then ret (fun j => if index3_eqb j i then v else image j)
  else raise IndexError.

(** The loop [for point in physical_points: edge_label[
    edge_label.TransformPhysicalPointToIndex(point)] = e_label] on a blank
    image with the geometry of the original image. *)
Definition mark_edges (g : image_geometry) (Dinv : mat3) (physical_points : list vec3)
  : result label_image :=
  Initialization.foldM
    (fun edge_label point =>
       set_pixel (size g) edge_label (TransformPhysicalPointToIndex g Dinv point) 255%Z)
    physical_points blank.

End Segmentation.

Module ErrorsNotebook.

Import RegistrationErrors.

(** A 2D point [[x, y]], a mutable Python list of two floats. *)
Definition point2 : Type := (R * R)%type.

(** The store of point objects, by address, and a list of references to
    them (a Python list of lists). *)
Abbreviation heap := (list point2).
Abbreviation pylist := (list nat).

(** The points a list refers to. *)
Definition read (h : heap) (l : pylist) : list point2 := omap (fun a => h !! a) l.

(** The references are to distinct allocated objects (as for a nested
    list literal). *)
Definition valid (h : heap) (l : pylist) : Prop :=
  NoDup l /\ Forall (fun a => (a < length h)%nat) l.

(** [copy.deepcopy] of a list of distinct point objects: a fresh object
    per point. *)
Definition deepcopy (h : heap) (l : pylist) : heap * pylist :=
  (h ++ read h l, seq (length h) (length (read h l))).

(** [np.sqrt((p[0] - q[0]) ** 2 + (p[1] - q[1]) ** 2)] *)
Definition distance2 (p q : point2) : R :=
  sqrt ((fst p - fst q) ^ 2 + (snd p - snd q) ^ 2).




(** [(np.mean(FLE_values), np.std(FLE_values), np.min(FLE_values),
    np.max(FLE_values), FLE_values)]: [np.mean] and [np.std] of an empty
    list give nan under a warning, [np.min] raises [ValueError]. *)
Definition FLE_information_of (FLE_values : list R) : result (R * R * R * R * list R) :=
  match FLE_values with
  | [] => raise ValueError
  | _ => ret (mean FLE_values, std FLE_values, list_min FLE_values,
              list_max FLE_values, FLE_values)
  end.

(** "Registration with perfect data (no noise or outliers)" up to "Change
    fourth fiducial to an outlier and register": the copy, the FLE values
    of the ideal data and their statistics, then the outlier written over
    the fourth copied fiducial.  The calls into SimpleITK and
    [display_errors] in between do not touch these lists and are taken to
    return.  The result holds the four statistics shown for the ideal
    data and the FLE values after the change. *)
Definition outlier_cell (outlier_fiducial : point2) (h : heap)
    (ideal_moving_fiducials : pylist)
  : result (heap * pylist * (R * R * R * R) * list R) :=
  let '(h, moving_fiducials) := deepcopy h ideal_moving_fiducials in
  let FLE_values := replicate (length moving_fiducials) 0 in
  FLE_information <-! FLE_information_of FLE_values ;;
  let '(FLE_mean, FLE_std, FLE_min, FLE_max, _) := FLE_information in
  match moving_fiducials !! 3%nat with
  | None => raise IndexError
  | Some a =>
      match h !! a with
      | None => raise IndexError
      | Some p =>
          let FLE_values := <[3%nat := distance2 outlier_fiducial p]> FLE_values in
          let h := <[a := outlier_fiducial]> h in
          ret (h, moving_fiducials, (FLE_mean, FLE_std, FLE_min, FLE_max), FLE_values)
      end
  end.


End ErrorsNotebook.

From stdpp Require Import gmap.

Local Open Scope R_scope.

Module ROutput.

(** What a file written by the R notebook holds. *)
Inductive file_content (image transform : Type) : Type :=
  | ImageFile (i : image)
  | TransformFile (t : transform).

Arguments ImageFile {image transform} i.
Arguments TransformFile {image transform} t.

(** [paste0(a, b)] *)
Definition paste0 (a b : string) : string := String.append a b.

(** [file.path(dir, name)] *)
Definition file_path (dir name : string) : string :=
  paste0 dir (paste0 "/" name).

(** [WriteImage] and [WriteTransform] create or replace one file. *)
Definition WriteImage {image transform : Type} (i : image) (name : string)
    (fs : gmap string (file_content image transform))
  : gmap string (file_content image transform) :=
  <[name := ImageFile i]> fs.

Definition WriteTransform {image transform : Type} (t : transform) (name : string)
    (fs : gmap string (file_content image transform))
  : gmap string (file_content image transform) :=
  <[name := TransformFile t]> fs.

(** [save_transform_and_image]: the resampled moving image goes to
    [outputfile_prefix.mha], the transform to [outputfile_prefix.tfm].
    [resample_execute] stands for the configured [ResampleImageFilter]. *)
Definition save_transform_and_image {image transform : Type}
    (resample_execute : transform -> image -> image -> image)
    (t : transform) (fixed_image moving_image : image) (outputfile_prefix : string)
    (fs : gmap string (file_content image transform))
  : gmap string (file_content image transform) :=
  let fs := WriteImage (resample_execute t fixed_image moving_image)
              (paste0 outputfile_prefix ".mha") fs in
  WriteTransform t (paste0 outputfile_prefix ".tfm") fs.

End ROutput.

(** * Properties *)

Import SphereFit RegistrationErrors Initialization.

(** Decides the comparisons of concrete reals met while evaluating. *)
Ltac decide_R :=
  repeat match goal with
         | |- context [Rle_dec ?a ?b] =>
             destruct (Rle_dec a b); cbn [fst snd] in *; try lra
         | |- context [Rlt_dec ?a ?b] =>
             destruct (Rlt_dec a b); cbn [fst snd] in *; try lra
         end.

(** ** Sums of reals *)

Lemma Rsum_app (l1 l2 : list R) : Rsum (l1 ++ l2) = Rsum l1 + Rsum l2.
Proof. induction l1 as [|x l1 IH]; simpl; [lra | rewrite IH; lra]. Qed.

Lemma Rsum_sq_nonneg {A : Type} (f : A -> R) (l : list A) :
  0 <= Rsum (map (fun a => f a ^ 2) l).
Proof.
  induction l as [|a l IH]; cbn [map Rsum]; [lra|].
  pose proof (pow2_ge_0 (f a)). lra.
Qed.

Lemma Rsum_sq_zero {A : Type} (f : A -> R) (l : list A) :
  Rsum (map (fun a => f a ^ 2) l) <= 0 -> Forall (fun a => f a = 0) l.
Proof.
  induction l as [|a l IH]; cbn [map Rsum]; intros H; constructor.
  - pose proof (pow2_ge_0 (f a)) as Ha.
    pose proof (Rsum_sq_nonneg f l) as Hl.
    assert (Hz : f a ^ 2 = 0) by lra.
    simpl in Hz. nra.
  - apply IH.
    pose proof (pow2_ge_0 (f a)). pose proof (Rsum_sq_nonneg f l). lra.
Qed.

Lemma Rsum_sq_shift {A : Type} (f : A -> R) (t : R) (l : list A) :
  Rsum (map (fun a => (f a + t) ^ 2) l)
  = Rsum (map (fun a => f a ^ 2) l) + 2 * t * Rsum (map f l)
    + INR (length l) * t ^ 2.
Proof.
  induction l as [|a l IH].
  - simpl. lra.
  - change (length (a :: l)) with (S (length l)). rewrite S_INR.
    cbn [map Rsum]. rewrite IH. ring.
Qed.

(** ** The sphere fit *)

Section SphereFitFacts.

Implicit Types (p c : point3) (x res : vec4) (points : list point3).

Lemma norm_sq p : norm p ^ 2 = px p * px p + py p * py p + pz p * pz p.
Proof. unfold norm. apply pow2_sqrt. nra. Qed.

Lemma centre_norm_sq_eq res :
  centre_norm_sq res = x0 res * x0 res + x1 res * x1 res + x2 res * x2 res.
Proof. unfold centre_norm_sq. apply pow2_sqrt. nra. Qed.

(** The loop fills the rows one after the other: after the rows before
    [row] have been written, the remaining rows still hold ones and
    zeros. *)
Lemma fill_spec points : forall (doneA : list row4) (doneb : list R),
  length doneA = length doneb ->
  fill (length doneA) points
    (doneA ++ ones (length points)) (doneb ++ zeros (length points))
  = (doneA ++ map row_of points, doneb ++ map rhs_of points).
Proof.
  induction points as [|p points IH]; intros doneA doneb Hlen.
  - reflexivity.
  - cbn [fill length ones zeros replicate map].
    assert (Hn : - norm p ^ 2 = rhs_of p)
      by (unfold rhs_of; rewrite norm_sq; reflexivity).
    rewrite Hn.
    replace (alter (set_cols03 (scale_m2 p)) (length doneA)
               (doneA ++ Row 1 1 1 1 :: replicate (length points) (Row 1 1 1 1)))
      with ((doneA ++ [row_of p]) ++ ones (length points)).
    2:{ rewrite <- (Nat.add_0_r (length doneA)) at 1.
        rewrite alter_app_r. rewrite <- app_assoc. reflexivity. }
    replace (<[length doneA := rhs_of p]>
               (doneb ++ 0 :: replicate (length points) 0))
      with ((doneb ++ [rhs_of p]) ++ zeros (length points)).
    2:{ rewrite Hlen. rewrite <- (Nat.add_0_r (length doneb)) at 1.
        rewrite insert_app_r. rewrite <- app_assoc. reflexivity. }
    replace (S (length doneA)) with (length (doneA ++ [row_of p]))
      by (rewrite length_app; simpl; lia).
    rewrite IH by (rewrite !length_app; simpl; lia).
    rewrite <- !app_assoc. reflexivity.
Qed.

Lemma setup_eq points : setup points = (map row_of points, map rhs_of points).
Proof. apply (fill_spec points [] []). reflexivity. Qed.

Lemma dot_row_of p x : dot (row_of p) x - rhs_of p = algebraic_distance x p.
Proof. unfold dot, row_of, rhs_of, algebraic_distance. simpl. ring. Qed.

Lemma sq_residual_setup points x :
  sq_residual (setup points).1 (setup points).2 x
  = Rsum (map (fun p => algebraic_distance x p ^ 2) points).
Proof.
  rewrite setup_eq. unfold sq_residual. cbn [fst snd].
  induction points as [|p points IH]; [reflexivity|].
  cbn [map zip_with Rsum]. rewrite IH, dot_row_of. reflexivity.
Qed.

Lemma Rsum_map_minus_const {A : Type} (f : A -> R) (k : R) (l : list A) :
  Rsum (map (fun a => f a - k) l) = Rsum (map f l) - INR (length l) * k.
Proof.
  induction l as [|a l IH].
  - simpl. lra.
  - change (length (a :: l)) with (S (length l)). rewrite S_INR.
    cbn [map Rsum]. rewrite IH. ring.
Qed.

Lemma Rsum_map_nonneg {A : Type} (f : A -> R) (l : list A) :
  (forall a, 0 <= f a) -> 0 <= Rsum (map f l).
Proof.
  intros Hf. induction l as [|a l IH]; cbn [map Rsum]; [lra|].
  specialize (Hf a). lra.
Qed.

Lemma INR_length_pos {A : Type} (l : list A) : l <> [] -> 0 < INR (length l).
Proof.
  destruct l as [|a l]; [congruence|]. intros _.
  change (length (a :: l)) with (S (length l)). rewrite S_INR.
  pose proof (pos_INR (length l)). lra.
Qed.

(** Because of the column of ones, the algebraic distances of a
    least-squares solution sum to zero. *)
Lemma lstsq_distances_sum_zero points res :
  points <> [] ->
  is_lstsq (setup points).1 (setup points).2 res ->
  Rsum (map (algebraic_distance res) points) = 0.
Proof.
  intros Hne Hls.
  set (S := Rsum (map (algebraic_distance res) points)).
  set (m := INR (length points)).
  assert (Hm : 0 < m) by (apply INR_length_pos; assumption).
  set (t := - S / m).
  specialize (Hls (V4 (x0 res) (x1 res) (x2 res) (x3 res + t))).
  rewrite !sq_residual_setup in Hls.
  rewrite (map_ext (fun p => algebraic_distance (V4 (x0 res) (x1 res) (x2 res) (x3 res + t)) p ^ 2)
             (fun p => (algebraic_distance res p + t) ^ 2)) in Hls
    by (intros p; unfold algebraic_distance; simpl; ring).
  rewrite Rsum_sq_shift in Hls. fold S m in Hls.
  assert (Heq : m * (2 * t * S + m * t ^ 2) = - (S * S))
    by (unfold t; field; lra).
  assert (Hge : 0 <= 2 * t * S + m * t ^ 2) by lra.
  assert (Hsq : 0 <= - (S * S)) by (rewrite <- Heq; nra).
  nra.
Qed.

(** In exact arithmetic a least-squares solution never has k above the
    squared norm of the centre: the implied squared radius is the mean
    squared distance of the points to the centre. *)
Lemma lstsq_radius_sq_nonneg points res :
  points <> [] ->
  is_lstsq (setup points).1 (setup points).2 res ->
  x3 res <= centre_norm_sq res.
Proof.
  intros Hne Hls.
  pose proof (lstsq_distances_sum_zero points res Hne Hls) as Hz.
  set (d2 := fun p => (px p - x0 res) ^ 2 + (py p - x1 res) ^ 2 + (pz p - x2 res) ^ 2).
  rewrite (map_ext (algebraic_distance res)
             (fun p => d2 p - (centre_norm_sq res - x3 res))) in Hz
    by (intros p; rewrite centre_norm_sq_eq; unfold algebraic_distance, d2; ring).
  rewrite Rsum_map_minus_const in Hz.
  assert (Hd : 0 <= Rsum (map d2 points)).
  { apply Rsum_map_nonneg. intros p. unfold d2.
    pose proof (pow2_ge_0 (px p - x0 res)). pose proof (pow2_ge_0 (py p - x1 res)).
    pose proof (pow2_ge_0 (pz p - x2 res)). lra. }
  pose proof (INR_length_pos points Hne) as Hm.
  nra.
Qed.

Lemma np_sqrt_nonneg (x : R) : 0 <= x -> np_sqrt x = Num (sqrt x).
Proof. intros H. unfold np_sqrt. destruct (Rlt_dec x 0); [lra | reflexivity]. Qed.

Lemma np_sqrt_neg (x : R) : x < 0 -> np_sqrt x = NaN.
Proof. intros H. unfold np_sqrt. destruct (Rlt_dec x 0); [reflexivity | lra]. Qed.

Lemma sphere_fit_unfold lstsq points res :
  lstsq (setup points).1 (setup points).2 = inr res ->
  sphere_fit lstsq points = inr (report_of res).
Proof.
  unfold sphere_fit. destruct (setup points) as [A b]. cbn [fst snd].
  intros ->. reflexivity.
Qed.

(** A solution of zero residual satisfies every equation. *)
Lemma zero_residual_exact points x :
  sq_residual (setup points).1 (setup points).2 x <= 0 ->
  Forall (fun p => algebraic_distance x p = 0) points.
Proof. rewrite sq_residual_setup. apply Rsum_sq_zero. Qed.

Lemma on_sphere_distance c r p :
  on_sphere c r p ->
  algebraic_distance
    (V4 (px c) (py c) (pz c) (px c * px c + py c * py c + pz c * pz c - r ^ 2)) p = 0.
Proof. unfold on_sphere, algebraic_distance. simpl. intros H. lra. Qed.

Lemma on_sphere_residual c r points :
  Forall (on_sphere c r) points ->
  sq_residual (setup points).1 (setup points).2
    (V4 (px c) (py c) (pz c) (px c * px c + py c * py c + pz c * pz c - r ^ 2)) = 0.
Proof.
  intros Hon. rewrite sq_residual_setup.
  induction Hon as [|p points Hp _ IH]; cbn [map Rsum]; [reflexivity|].
  rewrite IH, (on_sphere_distance c r p Hp). simpl. ring.
Qed.

(** On noise-free points in general position the only least-squares
    solution is the sphere itself. *)
Lemma lstsq_exact_solution c r points res :
  Forall (on_sphere c r) points ->
  full_rank (setup points).1 ->
  is_lstsq (setup points).1 (setup points).2 res ->
  res = V4 (px c) (py c) (pz c) (px c * px c + py c * py c + pz c * pz c - r ^ 2).
Proof.
  intros Hon Hrank Hls.
  set (xs := V4 (px c) (py c) (pz c) (px c * px c + py c * py c + pz c * pz c - r ^ 2)).
  assert (Hres : Forall (fun p => algebraic_distance res p = 0) points).
  { apply zero_residual_exact. rewrite <- (on_sphere_residual c r points Hon).
    apply Hls. }
  assert (Hker : vsub res xs = V4 0 0 0 0).
  { apply Hrank. rewrite setup_eq. cbn [fst]. rewrite Forall_map.
    rewrite Forall_forall in Hres, Hon |- *. intros p Hp.
    pose proof (Hres p Hp) as H1. pose proof (on_sphere_distance c r p (Hon p Hp)) as H2.
    fold xs in H2. rewrite <- dot_row_of in H1, H2.
    unfold dot, vsub in *. simpl in *. lra. }
  destruct res as [r0 r1 r2 r3]. unfold vsub, xs in *. simpl in Hker.
  injection Hker as H0 H1 H2 H3. unfold xs. f_equal; lra.
Qed.

(** C2. For m >= 4 points the cell builds the system whose i-th row is
    [-2 p_i, 1] and whose i-th right-hand side is -||p_i||^2; a
    least-squares answer [res] of the solver minimises the sum of squared
    algebraic distances; the cell reports [res[0:3]] as the centre and
    sqrt(||c||^2 - k) as the radius. *)
Theorem sphere_fit_solves_linear_system
    (lstsq : list row4 -> list R -> result vec4) points res :
  (4 <= length points)%nat ->
  lstsq (setup points).1 (setup points).2 = inr res ->
  is_lstsq (setup points).1 (setup points).2 res ->
  length (setup points).1 = length points /\
  length (setup points).2 = length points /\
  (forall (i : nat) p, points !! i = Some p ->
     (setup points).1 !! i = Some (Row (-2 * px p) (-2 * py p) (-2 * pz p) 1) /\
     (setup points).2 !! i = Some (- norm p ^ 2)) /\
  (forall y, Rsum (map (fun p => algebraic_distance res p ^ 2) points)
             <= Rsum (map (fun p => algebraic_distance y p ^ 2) points)) /\
  sphere_fit lstsq points
  = inr (Report (x0 res, x1 res, x2 res)
           (Num (sqrt (centre_norm_sq res - x3 res)))).
Proof.
  intros Hm Hsolve Hls.
  assert (Hne : points <> []) by (destruct points; simpl in Hm; [lia | congruence]).
  split; [|split; [|split; [|split]]].
  - rewrite setup_eq. cbn [fst]. apply length_map.
  - rewrite setup_eq. cbn [snd]. apply length_map.
  - intros i p Hi. rewrite setup_eq. cbn [fst snd].
    rewrite !list_lookup_fmap, Hi. split; [reflexivity|].
    rewrite norm_sq. reflexivity.
  - intros y. rewrite <- !sq_residual_setup. apply Hls.
  - rewrite (sphere_fit_unfold lstsq points res Hsolve). unfold report_of.
    rewrite np_sqrt_nonneg; [reflexivity|].
    pose proof (lstsq_radius_sq_nonneg points res Hne Hls). lra.
Qed.

(** C3, as amended.  In exact arithmetic, for points lying exactly on the
    sphere of centre [c] and radius [r], in a configuration for which the
    system has full column rank, every least-squares answer of the solver
    makes the cell report exactly [c] and [r].  (In binary64 arithmetic
    the recovery is not guaranteed: see the far sphere among the examples
    below.) *)
Theorem sphere_fit_recovers_exact_sphere
    (lstsq : list row4 -> list R -> result vec4) points c r res :
  0 <= r ->
  Forall (on_sphere c r) points ->
  full_rank (setup points).1 ->
  lstsq (setup points).1 (setup points).2 = inr res ->
  is_lstsq (setup points).1 (setup points).2 res ->
  sphere_fit lstsq points = inr (Report (px c, py c, pz c) (Num r)).
Proof.
  intros Hr Hon Hrank Hsolve Hls.
  rewrite (sphere_fit_unfold lstsq points res Hsolve).
  rewrite (lstsq_exact_solution c r points res Hon Hrank Hls).
  unfold report_of. rewrite centre_norm_sq_eq. cbn [x0 x1 x2 x3].
  replace (px c * px c + py c * py c + pz c * pz c
           - (px c * px c + py c * py c + pz c * pz c - r ^ 2)) with (r ^ 2) by ring.
  rewrite np_sqrt_nonneg by apply pow2_ge_0.
  rewrite sqrt_pow2 by assumption. reflexivity.
Qed.

(** The cell makes no validity check of its own: for an answer whose k
    exceeds the squared norm of its centre the cell completes and reports
    the centre with a not-a-number radius.  By [lstsq_radius_sq_nonneg] no
    least-squares answer over the reals is of this kind: the case can only
    come from the rounding of the solver. *)
Lemma negative_radicand_reports_nan
    (lstsq : list row4 -> list R -> result vec4) points res :
  lstsq (setup points).1 (setup points).2 = inr res ->
  x3 res > centre_norm_sq res ->
  sphere_fit lstsq points = inr (Report (x0 res, x1 res, x2 res) NaN).
Proof.
  intros Hsolve Hk.
  rewrite (sphere_fit_unfold lstsq points res Hsolve). unfold report_of.
  rewrite np_sqrt_neg by lra. reflexivity.
Qed.

Lemma zero_distances_is_lstsq points x :
  Forall (fun p => algebraic_distance x p = 0) points ->
  is_lstsq (setup points).1 (setup points).2 x.
Proof.
  intros Hz y. rewrite !sq_residual_setup.
  replace (Rsum (map (fun p => algebraic_distance x p ^ 2) points)) with 0.
  - apply Rsum_sq_nonneg.
  - induction Hz as [|p points Hp _ IH]; cbn [map Rsum]; [reflexivity|].
    rewrite <- IH, Hp. simpl. ring.
Qed.

End SphereFitFacts.

(** ** Binary64 arithmetic: how coarse the radius computation is *)

Section Binary64Facts.

Import SphereFit Binary64.

Lemma Rabs_le_bounds (x b : R) : Rabs x <= b -> - b <= x <= b.
Proof. unfold Rabs. destruct (Rcase_abs x); lra. Qed.

Lemma binary64_IZR (m : Z) : (Z.abs m < 2 ^ 53)%Z -> binary64 (IZR m).
Proof.
  intros Hm. exists m, 0%Z. split; [exact Hm|]. split; [lia|].
  rewrite powerRZ_O. ring.
Qed.

Lemma powerRZ2_IZR (z : Z) : (0 <= z)%Z -> powerRZ 2 z = IZR (2 ^ z).
Proof.
  intros Hz. rewrite <- (Z2Nat.id z Hz) at 1.
  rewrite <- pow_powerRZ, pow_IZR, Z2Nat.id by exact Hz. reflexivity.
Qed.

Lemma powerRZ2_le (e : Z) (k : nat) :
  (e <= Z.of_nat k)%Z -> powerRZ 2 e <= 2 ^ k.
Proof.
  intros He. rewrite (pow_powerRZ 2 k).
  replace (Z.of_nat k) with (e + (Z.of_nat k - e))%Z by lia.
  rewrite powerRZ_add by lra.
  pose proof (powerRZ_lt 2 e ltac:(lra)) as Hpos.
  rewrite (powerRZ2_IZR (Z.of_nat k - e)) by lia.
  assert (H1 : (1 <= 2 ^ (Z.of_nat k - e))%Z)
    by (pose proof (Z.pow_pos_nonneg 2 (Z.of_nat k - e) ltac:(lia) ltac:(lia)); lia).
  apply IZR_le in H1. nra.
Qed.

(** From 2^56 on, the binary64 values are multiples of 16. *)
Lemma binary64_large_multiple (x : R) :
  binary64 x -> 2 ^ 56 <= x -> exists j : Z, x = 16 * IZR j.
Proof.
  intros (m & e & Hm & He & ->) Hx.
  pose proof (powerRZ_lt 2 e ltac:(lra)) as Hpos.
  assert (Hm' : IZR m < 2 ^ 53).
  { assert (Hm0 : (m < 9007199254740992)%Z)
      by (change 9007199254740992%Z with (2 ^ 53)%Z; lia).
    apply IZR_lt in Hm0. lra. }
  assert (He4 : (4 <= e)%Z).
  { destruct (Z_le_gt_dec 4 e) as [H4 | H4]; [exact H4 | exfalso].
    pose proof (powerRZ2_le e 3 ltac:(lia)) as H8.
    assert (Hmpos : 0 < IZR m) by nra.
    assert (IZR m * powerRZ 2 e < 2 ^ 53 * 2 ^ 3) by nra.
    lra. }
  exists (m * 2 ^ (e - 4))%Z.
  replace e with (4 + (e - 4))%Z at 1 by lia.
  rewrite powerRZ_add by lra. rewrite (powerRZ2_IZR (e - 4)) by lia.
  rewrite mult_IZR. simpl. ring.
Qed.

Lemma nearest_exact (x y : R) : binary64 x -> nearest x y -> y = x.
Proof.
  intros Hx [_ Hy]. specialize (Hy x Hx).
  replace (x - x) with 0 in Hy by ring. rewrite Rabs_R0 in Hy.
  destruct (Req_dec (y - x) 0) as [H0 | H0]; [lra|].
  pose proof (Rabs_pos_lt _ H0). lra.
Qed.

Lemma nearest_ge (a x y : R) : binary64 a -> a <= x -> nearest x y -> a <= y.
Proof.
  intros Ha Hax [_ Hy]. specialize (Hy a Ha).
  destruct (Rle_dec a y) as [H | H]; [exact H | exfalso].
  rewrite (Rabs_left (y - x)), (Rabs_left1 (a - x)) in Hy by lra. lra.
Qed.

Lemma nearest_le (a x y : R) : binary64 a -> x <= a -> nearest x y -> y <= a.
Proof.
  intros Ha Hax [_ Hy]. specialize (Hy a Ha).
  destruct (Rle_dec y a) as [H | H]; [exact H | exfalso].
  rewrite (Rabs_right (y - x)), (Rabs_right (a - x)) in Hy by lra. lra.
Qed.

(** Subtracting a binary64 value from one of at least 2^57: the rounded
    difference is not positive, or it is at least 16. *)
Lemma difference_coarse (sq k d : R) :
  binary64 sq -> binary64 k -> 2 ^ 57 <= sq -> nearest (sq - k) d ->
  d <= 0 \/ 16 <= d.
Proof.
  intros Hsq Hk Hbig Hd.
  destruct (Rle_dec sq k) as [Hle | Hgt].
  - left. apply (nearest_le 0 (sq - k) d);
      [apply (binary64_IZR 0); reflexivity | lra | exact Hd].
  - right. apply (nearest_ge 16 (sq - k) d);
      [apply (binary64_IZR 16); reflexivity | | exact Hd].
    destruct (Rle_dec (2 ^ 56) k) as [Hk56 | Hk56]; [|lra].
    destruct (binary64_large_multiple sq Hsq ltac:(lra)) as [j1 ->].
    destruct (binary64_large_multiple k Hk Hk56) as [j2 ->].
    assert (Hj : (j2 < j1)%Z) by (apply lt_IZR; lra).
    assert (Hj' : (j2 + 1 <= j1)%Z) by lia.
    apply IZR_le in Hj'. rewrite plus_IZR in Hj'. lra.
Qed.

(** The computed square of the norm of a centre that lies within 2^20 of
    2^28 along each axis is at least 2^57. *)
Lemma far_norm_sq_large (res : vec4) (n sq : R) :
  2 ^ 28 - 2 ^ 20 <= x0 res -> 2 ^ 28 - 2 ^ 20 <= x1 res -> 2 ^ 28 - 2 ^ 20 <= x2 res ->
  accurate (sqrt (x0 res * x0 res + x1 res * x1 res + x2 res * x2 res)) n ->
  accurate (n ^ 2) sq ->
  2 ^ 57 <= sq.
Proof.
  intros H0 H1 H2 [_ Hn] [_ Hsq].
  set (S := x0 res * x0 res + x1 res * x1 res + x2 res * x2 res) in *.
  assert (HS : 402653184 * 402653184 <= S) by (unfold S; nra).
  pose proof (sqrt_pos S) as Ha0.
  pose proof (sqrt_sqrt S ltac:(lra)) as Haa.
  set (a := sqrt S) in *.
  assert (Ha : 402653184 <= a) by nra.
  rewrite (Rabs_pos_eq a) in Hn by lra.
  apply Rabs_le_bounds in Hn.
  assert (Hn' : 402653183 <= n) by lra.
  assert (Hnn : 402653183 * 402653183 <= n ^ 2) by nra.
  rewrite (Rabs_pos_eq (n ^ 2)) in Hsq by lra.
  apply Rabs_le_bounds in Hsq. lra.
Qed.

(** For such a centre the radius the cell computes is zero, or at least
    4, or not a number: nothing in between can come out. *)
Lemma radius_binary64_coarse (res : vec4) (rad : npfloat) :
  binary64 (x3 res) ->
  2 ^ 28 - 2 ^ 20 <= x0 res -> 2 ^ 28 - 2 ^ 20 <= x1 res -> 2 ^ 28 - 2 ^ 20 <= x2 res ->
  radius_binary64 res rad ->
  match rad with
  | NaN => True
  | Num s => s = 0 \/ 4 <= s
  end.
Proof.
  intros Hk H0 H1 H2 (n & sq & d & Hn & Hsq & Hd & Hrad).
  destruct rad as [s|]; [|exact I]. destruct Hrad as [Hd0 Hs].
  pose proof (far_norm_sq_large res n sq H0 H1 H2 Hn Hsq) as Hbig.
  destruct (difference_coarse sq (x3 res) d (proj1 Hsq) Hk Hbig Hd) as [Hle | Hge].
  - left. assert (Hdz : d = 0) by lra. subst d. rewrite sqrt_0 in Hs.
    apply (nearest_exact 0 s); [apply (binary64_IZR 0); reflexivity | exact Hs].
  - right. apply (nearest_ge 4 (sqrt d) s);
      [apply (binary64_IZR 4); reflexivity | | exact Hs].
    rewrite <- (sqrt_square 4) by lra. apply sqrt_le_1; lra.
Qed.

End Binary64Facts.

Section SphereFitExamples.

Import Examples Binary64.

Lemma sphere_points_lstsq :
  is_lstsq (setup sphere_points).1 (setup sphere_points).2 (V4 1 2 3 10).
Proof.
  apply zero_distances_is_lstsq.
  repeat constructor; unfold algebraic_distance; simpl; lra.
Defined.

Lemma sphere_points_full_rank : full_rank (setup sphere_points).1.
Proof.
  intros x H. rewrite setup_eq in H. cbn [fst sphere_points map] in H.
  inversion H as [|r1 l1 H1 T1]; subst.
  inversion T1 as [|r2 l2 H2 T2]; subst.
  inversion T2 as [|r3 l3 H3 T3]; subst.
  inversion T3 as [|r4 l4 H4 T4]; subst.
  destruct x as [y0 y1 y2 y3]. unfold dot, row_of in *. simpl in *.
  f_equal; lra.
Defined.

Lemma sphere_points_on_sphere : Forall (on_sphere (P3 1 2 3) 2) sphere_points.
Proof. repeat constructor; unfold on_sphere; simpl; lra. Defined.

Lemma far_points_on_sphere : Forall (on_sphere far_centre 1) far_points.
Proof. repeat constructor; unfold on_sphere; simpl; lra. Qed.

Lemma far_points_full_rank : full_rank (setup far_points).1.
Proof.
  intros x H. rewrite setup_eq in H. cbn [fst far_points map] in H.
  inversion H as [|r1 l1 H1 T1]; subst.
  inversion T1 as [|r2 l2 H2 T2]; subst.
  inversion T2 as [|r3 l3 H3 T3]; subst.
  inversion T3 as [|r4 l4 H4 T4]; subst.
  destruct x as [y0 y1 y2 y3]. unfold dot, row_of in *. simpl in *.
  f_equal; lra.
Qed.

Lemma far_points_binary64 :
  Forall (fun p => binary64 (px p) /\ binary64 (py p) /\ binary64 (pz p)) far_points.
Proof.
  repeat constructor; cbn [px py pz]; apply binary64_IZR; reflexivity.
Qed.

(** Counterexample to C3 as stated.  The four points of [far_points] lie
    exactly on the sphere of centre (2^28, 2^28, 2^28) and radius 1, their
    coordinates are binary64 values and the system they give has full
    column rank; yet in the binary64 arithmetic of the cell no answer of
    the solver whatever makes the cell report a centre within 2^20 of the
    true one together with a radius within 1/2 of the true radius 1: near
    that centre the squared norm is of the order of 2^57, where binary64
    values are 16 or more apart, so the computed radius is zero, at least
    4, or not a number. *)
Lemma sphere_fit_binary64_loses_radius :
  (4 <= length far_points)%nat /\
  Forall (on_sphere far_centre 1) far_points /\
  full_rank (setup far_points).1 /\
  Forall (fun p => binary64 (px p) /\ binary64 (py p) /\ binary64 (pz p)) far_points /\
  forall res rep,
    report_binary64 res rep ->
    ~ recovers far_centre 1 (2 ^ 20) (1 / 2) rep.
Proof.
  split; [simpl; lia|]. split; [exact far_points_on_sphere|].
  split; [exact far_points_full_rank|]. split; [exact far_points_binary64|].
  intros res rep (_ & _ & _ & Hk & Hloc & Hrad) (Hc0 & Hc1 & Hc2 & s & Hs & Hclose).
  rewrite Hloc in Hc0, Hc1, Hc2. cbn [fst snd far_centre px py pz] in Hc0, Hc1, Hc2.
  apply Rabs_le_bounds in Hc0, Hc1, Hc2, Hclose.
  rewrite Hs in Hrad.
  pose proof (radius_binary64_coarse res (Num s) Hk ltac:(lra) ltac:(lra) ltac:(lra) Hrad)
    as [Hz | Hbig]; lra.
Qed.

Lemma sphere_fit_solves_linear_system_witness :
  sphere_fit sphere_lstsq sphere_points
  = inr (Report (1, 2, 3) (Num (sqrt (centre_norm_sq (V4 1 2 3 10) - 10)))).
Proof.
  apply (sphere_fit_solves_linear_system sphere_lstsq sphere_points (V4 1 2 3 10)).
  - simpl. lia.
  - reflexivity.
  - exact sphere_points_lstsq.
Defined.

Lemma sphere_fit_recovers_exact_sphere_witness :
  sphere_fit sphere_lstsq sphere_points = inr (Report (1, 2, 3) (Num 2)).
Proof.
  apply (sphere_fit_recovers_exact_sphere sphere_lstsq sphere_points
           (P3 1 2 3) 2 (V4 1 2 3 10)).
  - lra.
  - exact sphere_points_on_sphere.
  - exact sphere_points_full_rank.
  - reflexivity.
  - exact sphere_points_lstsq.
Defined.

End SphereFitExamples.

(** ** Registration errors *)

Section RegistrationErrorsFacts.

Implicit Types (l errors : list R) (source_points target_points : list point).

Lemma fold_Rmin_le_init l x : fold_left Rmin l x <= x.
Proof.
  revert x. induction l as [|a l IH]; intros x; simpl; [lra|].
  pose proof (IH (Rmin x a)). pose proof (Rmin_l x a). lra.
Qed.

Lemma fold_Rmin_le l x : Forall (fun y => fold_left Rmin l x <= y) l.
Proof.
  revert x. induction l as [|a l IH]; intros x; simpl; constructor.
  - pose proof (fold_Rmin_le_init l (Rmin x a)). pose proof (Rmin_r x a). lra.
  - apply IH.
Qed.

Lemma fold_Rmin_In l x : In (fold_left Rmin l x) (x :: l).
Proof.
  revert x. induction l as [|a l IH]; intros x; simpl; [tauto|].
  destruct (IH (Rmin x a)) as [H | H]; [|tauto].
  rewrite <- H. unfold Rmin. destruct (Rle_dec x a); tauto.
Qed.

Lemma fold_Rmax_ge_init l x : x <= fold_left Rmax l x.
Proof.
  revert x. induction l as [|a l IH]; intros x; simpl; [lra|].
  pose proof (IH (Rmax x a)). pose proof (Rmax_l x a). lra.
Qed.

Lemma fold_Rmax_ge l x : Forall (fun y => y <= fold_left Rmax l x) l.
Proof.
  revert x. induction l as [|a l IH]; intros x; simpl; constructor.
  - pose proof (fold_Rmax_ge_init l (Rmax x a)). pose proof (Rmax_r x a). lra.
  - apply IH.
Qed.

Lemma fold_Rmax_In l x : In (fold_left Rmax l x) (x :: l).
Proof.
  revert x. induction l as [|a l IH]; intros x; simpl; [tauto|].
  destruct (IH (Rmax x a)) as [H | H]; [|tauto].
  rewrite <- H. unfold Rmax. destruct (Rle_dec x a); tauto.
Qed.

Lemma list_min_spec l :
  l <> [] -> In (list_min l) l /\ Forall (fun y => list_min l <= y) l.
Proof.
  destruct l as [|x l]; [congruence|]. intros _. unfold list_min. split.
  - apply fold_Rmin_In.
  - constructor; [apply fold_Rmin_le_init | apply fold_Rmin_le].
Qed.

Lemma list_max_spec l :
  l <> [] -> In (list_max l) l /\ Forall (fun y => y <= list_max l) l.
Proof.
  destruct l as [|x l]; [congruence|]. intros _. unfold list_max. split.
  - apply fold_Rmax_In.
  - constructor; [apply fold_Rmax_ge_init | apply fold_Rmax_ge].
Qed.

Lemma mean_spec l : l <> [] -> mean l * INR (length l) = Rsum l.
Proof.
  intros Hne. pose proof (INR_length_pos l Hne). unfold mean. field. lra.
Qed.

Lemma mean_sq_nonneg (f : R -> R) l : 0 <= mean (map (fun x => f x ^ 2) l).
Proof.
  unfold mean. rewrite length_map.
  pose proof (Rsum_sq_nonneg f l) as Hs.
  destruct l as [|x l].
  - simpl. rewrite Rdiv_0_l. lra.
  - pose proof (INR_length_pos (x :: l) ltac:(congruence)) as Hm.
    apply Rmult_le_pos; [exact Hs|].
    apply Rlt_le, Rinv_0_lt_compat, Hm.
Qed.

Lemma std_spec l : std l ^ 2 = mean (map (fun x => (x - mean l) ^ 2) l).
Proof. unfold std. apply pow2_sqrt. apply (mean_sq_nonneg (fun x => x - mean l)). Qed.

Lemma std_nonneg l : 0 <= std l.
Proof. unfold std. apply sqrt_pos. Qed.

Lemma residuals_length tx source_points target_points :
  length source_points = length target_points ->
  length (residuals tx source_points target_points) = length source_points.
Proof. intros H. unfold residuals. rewrite length_zip_with. lia. Qed.

Lemma residuals_lookup tx source_points target_points (i : nat) p q :
  source_points !! i = Some p -> target_points !! i = Some q ->
  residuals tx source_points target_points !! i
  = Some (euclidean_distance (tx p) q).
Proof.
  intros Hp Hq. unfold residuals. rewrite lookup_zip_with, Hp. cbn. rewrite Hq.
  reflexivity.
Qed.

Lemma residuals_ext tx tx' source_points target_points :
  Forall (fun p => tx' p = tx p) source_points ->
  residuals tx' source_points target_points = residuals tx source_points target_points.
Proof.
  intros H. revert target_points.
  induction H as [|p ps Hp _ IH]; intros [|q qs]; try reflexivity.
  unfold residuals in *. cbn [zip_with]. rewrite Hp, IH. reflexivity.
Qed.

(** C4. For equal-length point sequences [registration_errors] returns
    the 5-tuple (mean, std, min, max, errors) in which [errors] holds, at
    each index, the Euclidean distance between the transformed source point
    and the target point, and the four statistics are the mean, standard
    deviation, minimum and maximum of [errors]; the result depends on the
    transform only through its values at the source points. *)
Theorem registration_errors_statistics tx source_points target_points :
  length source_points = length target_points ->
  exists errors,
    registration_errors tx source_points target_points
    = inr (mean errors, std errors, list_min errors, list_max errors, errors) /\
    length errors = length source_points /\
    (forall (i : nat) p q,
       source_points !! i = Some p -> target_points !! i = Some q ->
       errors !! i = Some (euclidean_distance (tx p) q)) /\
    (errors <> [] ->
       mean errors * INR (length errors) = Rsum errors /\
       (0 <= std errors /\
        std errors ^ 2 = mean (map (fun e => (e - mean errors) ^ 2) errors)) /\
       (In (list_min errors) errors /\ Forall (fun e => list_min errors <= e) errors) /\
       (In (list_max errors) errors /\ Forall (fun e => e <= list_max errors) errors)) /\
    (forall tx', Forall (fun p => tx' p = tx p) source_points ->
       registration_errors tx' source_points target_points
       = registration_errors tx source_points target_points).
Proof.
  intros Hlen. exists (residuals tx source_points target_points).
  assert (E : Nat.eqb (length source_points) (length target_points) = true)
    by (apply Nat.eqb_eq; exact Hlen).
  unfold registration_errors. rewrite E.
  split; [reflexivity|]. split; [apply residuals_length; assumption|].
  split; [exact (residuals_lookup tx source_points target_points)|]. split.
  - intros Hne. split; [apply mean_spec; assumption|].
    split; [split; [apply std_nonneg | apply std_spec]|].
    split; [apply list_min_spec | apply list_max_spec]; assumption.
  - intros tx' Hext. rewrite (residuals_ext tx tx' _ _ Hext). reflexivity.
Qed.

(** C5. [registration_errors] fails with [DimensionMismatch] exactly when
    the two sequences differ in length; when it returns, the per-point
    errors have the length of both sequences (nothing was truncated or
    padded). *)
Theorem registration_errors_dimension_mismatch tx source_points target_points :
  (length source_points <> length target_points ->
   registration_errors tx source_points target_points = inl DimensionMismatch) /\
  (length source_points = length target_points ->
   succeeds (registration_errors tx source_points target_points)) /\
  (forall out, registration_errors tx source_points target_points = inr out ->
     length out.2 = length source_points /\ length out.2 = length target_points).
Proof.
  unfold registration_errors.
  destruct (Nat.eqb_spec (length source_points) (length target_points)) as [E | E].
  - split; [congruence|]. split; [intros _; eexists; reflexivity|].
    intros out H. injection H as <-. cbn [snd].
    rewrite residuals_length by assumption. split; [reflexivity | assumption].
  - split; [reflexivity|]. split; [congruence|]. intros out H. discriminate.
Qed.

End RegistrationErrorsFacts.

Section RegistrationErrorsExamples.

Import Examples.

Lemma registration_errors_statistics_witness :
  exists errors,
    registration_errors shift_x fixed_fiducials moving_fiducials
    = inr (mean errors, std errors, list_min errors, list_max errors, errors) /\
    length errors = 2%nat.
Proof.
  destruct (registration_errors_statistics shift_x fixed_fiducials moving_fiducials)
    as (errors & Heq & Hlen & _).
  - reflexivity.
  - exists errors. split; [exact Heq | exact Hlen].
Defined.

Lemma registration_errors_dimension_mismatch_witness :
  registration_errors shift_x fixed_fiducials [[1; 0]] = inl DimensionMismatch.
Proof.
  apply (registration_errors_dimension_mismatch shift_x fixed_fiducials [[1; 0]]).
  simpl. lia.
Defined.

End RegistrationErrorsExamples.

(** ** Sorting and minimum selection *)

Section Selection.

Context {A : Type} (key : A -> R).

Lemma insert_by_perm x l : Permutation (x :: l) (insert_by key x l).
Proof.
  induction l as [|y l IH]; simpl; [reflexivity|].
  destruct (Rle_dec (key x) (key y)); [reflexivity|].
  rewrite perm_swap. apply perm_skip, IH.
Qed.

Lemma sort_by_perm l : Permutation l (sort_by key l).
Proof.
  induction l as [|x l IH]; simpl; [reflexivity|].
  rewrite <- insert_by_perm. apply perm_skip, IH.
Qed.

Lemma sort_by_length l : length (sort_by key l) = length l.
Proof. symmetry. apply Permutation_length, sort_by_perm. Qed.

Lemma insert_by_sorted x l :
  StronglySorted (key_le key) l -> StronglySorted (key_le key) (insert_by key x l).
Proof.
  induction 1 as [|y l Hs IH Hy]; simpl.
  - repeat constructor.
  - destruct (Rle_dec (key x) (key y)) as [Hle | Hgt].
    + constructor; [constructor; assumption|].
      constructor; [exact Hle|].
      eapply Forall_impl; [exact Hy|]. unfold key_le. intros z Hz. lra.
    + constructor; [exact IH|].
      eapply Permutation_Forall; [apply insert_by_perm|].
      constructor; [unfold key_le; lra | exact Hy].
Qed.

Lemma sort_by_sorted l : StronglySorted (key_le key) (sort_by key l).
Proof.
  induction l as [|x l IH]; simpl; [constructor | apply insert_by_sorted, IH].
Qed.

Lemma sorted_app_le l1 l2 a b :
  StronglySorted (key_le key) (l1 ++ l2) -> In a l1 -> In b l2 -> key a <= key b.
Proof.
  induction l1 as [|x l1 IH]; simpl; intros Hs Ha Hb; [contradiction|].
  inversion Hs as [|? ? Hs' Hx]; subst.
  destruct Ha as [-> | Ha]; [|apply IH; assumption].
  rewrite List.Forall_forall in Hx. apply Hx. apply in_or_app. right. exact Hb.
Qed.

(** The sort is stable: items of equal key keep their order. *)
Lemma insert_by_filter (P : A -> bool) x l :
  (forall y, In y l -> P y = true -> P x = true -> key x <= key y) ->
  List.filter P (insert_by key x l) = List.filter P (x :: l).
Proof.
  induction l as [|y l IH]; intros Hle; [reflexivity|].
  cbn [insert_by]. destruct (Rle_dec (key x) (key y)) as [|Hgt]; [reflexivity|].
  cbn [List.filter]. rewrite IH by (intros z Hz; apply Hle; right; exact Hz).
  cbn [List.filter]. destruct (P x) eqn:Px; [|reflexivity].
  destruct (P y) eqn:Py; [|reflexivity].
  exfalso. apply Hgt. apply Hle; [left; reflexivity | exact Py | reflexivity].
Qed.

Lemma sort_by_stable (P : A -> bool) l :
  (forall x y, P x = true -> P y = true -> key x = key y) ->
  List.filter P (sort_by key l) = List.filter P l.
Proof.
  intros Hsame. induction l as [|x l IH]; [reflexivity|].
  cbn [sort_by]. rewrite insert_by_filter.
  - cbn [List.filter]. rewrite IH. reflexivity.
  - intros y _ Py Px. rewrite (Hsame x y Px Py). lra.
Qed.

Lemma min_from_In best l : In (min_from key best l) (best :: l).
Proof.
  revert best. induction l as [|x l IH]; intros best; cbn [min_from]; [left; reflexivity|].
  destruct (IH (if Rlt_dec (key x) (key best) then x else best)) as [H | H].
  - rewrite <- H. destruct (Rlt_dec (key x) (key best)); simpl; tauto.
  - right. right. exact H.
Qed.

Lemma min_from_le best l :
  Forall (fun y => key (min_from key best l) <= key y) (best :: l).
Proof.
  revert best. induction l as [|x l IH]; intros best; cbn [min_from].
  - constructor; [lra | constructor].
  - specialize (IH (if Rlt_dec (key x) (key best) then x else best)).
    inversion IH as [|? ? Hb Hl]; subst.
    constructor; [|constructor; [|exact Hl]];
      destruct (Rlt_dec (key x) (key best)); lra.
Qed.

(** The first minimum: nothing before the selected item is as small. *)
Lemma min_from_first best l :
  min_from key best l = best \/
  exists l1 l2, l = l1 ++ min_from key best l :: l2 /\
    Forall (fun y => key (min_from key best l) < key y) (best :: l1).
Proof.
  revert best. induction l as [|x l IH]; intros best; cbn [min_from]; [left; reflexivity|].
  destruct (Rlt_dec (key x) (key best)) as [Hlt | Hge].
  - right. destruct (IH x) as [-> | (l1 & l2 & Hl & Hall)].
    + exists [], l. split; [reflexivity|]. repeat constructor. exact Hlt.
    + exists (x :: l1), l2. split; [simpl; rewrite <- Hl; reflexivity|].
      inversion Hall as [|? ? Hx Hl1]; subst.
      constructor; [lra|]. constructor; assumption.
  - destruct (IH best) as [-> | (l1 & l2 & Hl & Hall)]; [left; reflexivity|].
    right. exists (x :: l1), l2. split; [simpl; rewrite <- Hl; reflexivity|].
    inversion Hall as [|? ? Hb Hl1]; subst.
    constructor; [exact Hb|]. constructor; [lra | exact Hl1].
Qed.

Lemma py_min_spec l :
  l <> [] ->
  exists r, py_min key l = inr r /\ In r l /\ Forall (fun y => key r <= key y) l.
Proof.
  destruct l as [|x l]; [congruence|]. intros _.
  exists (min_from key x l). split; [reflexivity|].
  split; [apply min_from_In | apply min_from_le].
Qed.

End Selection.

(** ** Exploration step *)

(** The observers collect one (metric value, position) pair per grid
    position, in the order of the visits, whatever the list held before. *)
Lemma exploration_step_collects (metric : parameters -> R) (grid : list parameters)
    (previous : list (R * parameters)) :
  exploration_step metric grid previous = map (fun p => (metric p, p)) grid.
Proof.
  unfold exploration_step, start_observer.
  assert (H : forall acc,
             fold_left (fun l position => iteration_observer (metric position) position l)
               grid acc
             = acc ++ map (fun p => (metric p, p)) grid).
  { induction grid as [|p grid IH]; intros acc; cbn [fold_left map].
    - rewrite app_nil_r. reflexivity.
    - rewrite IH. unfold iteration_observer. rewrite <- app_assoc. reflexivity. }
  apply (H []).
Qed.

(** ** Exploitation step *)

Section ExploitationFacts.

Variable Execute : Euler3DTransform -> Euler3DTransform * R.

Implicit Types (candidates : list (R * parameters)) (initial_transform : Euler3DTransform).

Lemma k_most_promising_sorted candidates :
  k_most_promising_of (sort_by fst candidates) = Nat.min 3 (length candidates).
Proof. unfold k_most_promising_of. rewrite sort_by_length. reflexivity. Qed.

(** The loop appends one refinement per candidate, each started from the
    candidate's parameters. *)
Lemma exploit_fold candidates : forall initial_transform acc,
  snd (fold_left (exploit_body Execute) candidates (initial_transform, acc))
  = acc ++ map (refined_from Execute initial_transform) candidates.
Proof.
  induction candidates as [|item candidates IH]; intros initial_transform acc.
  - simpl. rewrite app_nil_r. reflexivity.
  - cbn [fold_left exploit_body map]. rewrite IH, <- app_assoc. reflexivity.
Qed.

Lemma final_results_eq candidates initial_transform :
  final_results_of Execute candidates initial_transform
  = map (refined_from Execute initial_transform)
      (take (Nat.min 3 (length candidates)) (sort_by fst candidates)).
Proof.
  unfold final_results_of. rewrite exploit_fold, k_most_promising_sorted.
  reflexivity.
Qed.

Lemma final_results_length candidates initial_transform :
  length (final_results_of Execute candidates initial_transform)
  = Nat.min 3 (length candidates).
Proof.
  rewrite final_results_eq, length_map, length_take, sort_by_length. lia.
Qed.

Lemma final_results_nonempty candidates initial_transform :
  candidates <> [] -> final_results_of Execute candidates initial_transform <> [].
Proof.
  intros Hne Hnil. apply (f_equal length) in Hnil.
  rewrite final_results_length in Hnil.
  destruct candidates; [congruence | simpl in Hnil; lia].
Qed.

(** The refinement started from a candidate is the library's registration
    run on the transform that holds the candidate's rotation and
    translation and the centre of [initial_transform]. *)
Lemma refined_from_eq initial_transform (item : R * parameters) :
  refined_from Execute initial_transform item
  = Execute (Euler3D (fst (snd item)) (snd (snd item)) (center initial_transform)).
Proof.
  unfold refined_from, multires_registration, SetParameters.
  destruct (Execute _) as [final_transform metric_value]. reflexivity.
Qed.

(** C6. The exploitation step sorts the collected pairs ascending by
    metric value and runs the registration once from each of the first k
    pairs of the sorted list, and from no other: the i-th entry of
    [final_results] is what [Execute] returns when started from the
    transform holding the rotation and translation of the i-th sorted
    candidate (and the centre of [initial_transform]); each refined
    candidate costs no more than any candidate left out; the step returns
    the entry of [final_results] of least final metric value. *)
Theorem exploitation_refines_k_best candidates initial_transform :
  let sorted := sort_by fst candidates in
  let k := Nat.min 3 (length candidates) in
  let final_results := final_results_of Execute candidates initial_transform in
  Permutation candidates sorted /\
  StronglySorted (key_le fst) sorted /\
  final_results
  = map (fun item =>
           Execute (Euler3D (fst (snd item)) (snd (snd item)) (center initial_transform)))
      (take k sorted) /\
  length final_results = k /\
  (forall a b, In a (take k sorted) -> In b (drop k sorted) -> fst a <= fst b) /\
  (candidates <> [] ->
   exists best,
     exploitation_step Execute candidates initial_transform = inr best /\
     In best final_results /\
     Forall (fun r => snd best <= snd r) final_results).
Proof.
  intros sorted k final_results.
  split; [apply sort_by_perm|]. split; [apply sort_by_sorted|].
  split; [|split; [apply final_results_length|split]].
  - unfold final_results. rewrite final_results_eq. apply map_ext.
    intros item. apply refined_from_eq.
  - intros a b Ha Hb. apply (sorted_app_le fst (take k sorted) (drop k sorted)); try assumption.
    rewrite take_drop. apply sort_by_sorted.
  - intros Hne. apply py_min_spec. apply final_results_nonempty. exact Hne.
Qed.

(** C7. When k equals the number of collected candidates, the returned
    result is at least as good as the refinement of any single
    candidate. *)
Theorem exploitation_all_candidates_best candidates initial_transform :
  candidates <> [] ->
  k_most_promising_of candidates = length candidates ->
  exists best,
    exploitation_step Execute candidates initial_transform = inr best /\
    forall c, In c candidates ->
      snd best <= snd (refined_from Execute initial_transform c).
Proof.
  intros Hne Hk.
  destruct (py_min_spec snd (final_results_of Execute candidates initial_transform)
              (final_results_nonempty candidates initial_transform Hne))
    as (best & Hbest & _ & Hle).
  exists best. split; [exact Hbest|]. intros c Hc.
  rewrite List.Forall_forall in Hle. apply Hle.
  rewrite final_results_eq. unfold k_most_promising_of in Hk. rewrite Hk.
  rewrite take_ge by (rewrite sort_by_length; lia).
  apply in_map. eapply Permutation_in; [apply sort_by_perm | exact Hc].
Qed.

(** C10. For a non-empty list of collected pairs the number of refined
    candidates is min(3, number of candidates): it is at least one and at
    most the number of candidates, the slice has exactly that length, one
    refinement runs per sliced candidate, and the final minimum exists. *)
Theorem exploitation_well_defined candidates initial_transform :
  candidates <> [] ->
  let sorted := sort_by fst candidates in
  let k := k_most_promising_of sorted in
  k = Nat.min 3 (length candidates) /\
  (1 <= k <= length sorted)%nat /\
  length (take k sorted) = k /\
  length (final_results_of Execute candidates initial_transform) = k /\
  succeeds (exploitation_step Execute candidates initial_transform).
Proof.
  intros Hne sorted k.
  assert (Hk : k = Nat.min 3 (length candidates)) by apply k_most_promising_sorted.
  assert (Hlen : (1 <= length candidates)%nat)
    by (destruct candidates; [congruence | simpl; lia]).
  split; [exact Hk|]. unfold sorted. rewrite sort_by_length.
  split; [lia|]. split; [rewrite length_take, sort_by_length; lia|].
  split; [rewrite final_results_length; lia|].
  destruct (py_min_spec snd (final_results_of Execute candidates initial_transform)
              (final_results_nonempty candidates initial_transform Hne))
    as (best & Hbest & _).
  exists best. exact Hbest.
Qed.

End ExploitationFacts.

Section ExploitationExamples.

Import Examples.

Lemma exploitation_refines_k_best_witness :
  final_results_of example_execute two_candidates example_tx
  = [example_execute (Euler3D (0, PI, 0) (0, 0, 0) (4, 5, 6));
     example_execute (Euler3D (0, 0, 0) (0, 0, 0) (4, 5, 6))] /\
  exists best,
    exploitation_step example_execute two_candidates example_tx = inr best /\
    In best (final_results_of example_execute two_candidates example_tx) /\
    Forall (fun r => snd best <= snd r)
      (final_results_of example_execute two_candidates example_tx).
Proof.
  pose proof (exploitation_refines_k_best example_execute two_candidates example_tx) as H.
  cbv zeta in H. destruct H as (_ & _ & Hresults & _ & _ & Hbest).
  split.
  - rewrite Hresults. unfold two_candidates. cbn [length Nat.min sort_by insert_by fst snd].
    destruct (Rle_dec 3 1) as [Hle | _]; [lra|]. reflexivity.
  - apply Hbest. discriminate.
Defined.

Lemma exploitation_all_candidates_best_witness :
  exists best,
    exploitation_step example_execute two_candidates example_tx = inr best /\
    forall c, In c two_candidates ->
      snd best <= snd (refined_from example_execute example_tx c).
Proof.
  apply (exploitation_all_candidates_best example_execute two_candidates example_tx).
  - discriminate.
  - reflexivity.
Defined.

Lemma exploitation_well_defined_witness :
  succeeds (exploitation_step example_execute one_candidate example_tx).
Proof.
  apply (exploitation_well_defined example_execute one_candidate example_tx).
  discriminate.
Defined.

End ExploitationExamples.

(** ** The thread pool *)

Section PoolFacts.

Context {A B : Type} (f : A -> result B) (l : list A).

Implicit Types (schedule : list nat) (st : pool_state B) (vs : list B).

Lemma pool_step_keeps_error st (i : nat) :
  is_Some (snd st) -> is_Some (snd (pool_step f l st i)).
Proof.
  intros Hs. unfold pool_step.
  destruct (l !! i) as [a|]; [|exact Hs].
  destruct (f a) as [e | v]; cbn [snd]; [|exact Hs].
  destruct (snd st); eauto.
Qed.

Lemma pool_fold_keeps_error schedule st :
  is_Some (snd st) -> is_Some (snd (fold_left (pool_step f l) schedule st)).
Proof.
  revert st. induction schedule as [|i schedule IH]; intros st Hs; [exact Hs|].
  cbn [fold_left]. apply IH, pool_step_keeps_error, Hs.
Qed.

(** A failing task that runs leaves an error behind. *)
Lemma pool_fold_failure schedule st (i : nat) a e :
  In i schedule -> l !! i = Some a -> f a = inl e ->
  is_Some (snd (fold_left (pool_step f l) schedule st)).
Proof.
  intros Hin Hi Hf. revert st.
  induction schedule as [|j schedule IH]; intros st; [contradiction|].
  cbn [fold_left]. destruct Hin as [-> | Hin]; [|apply IH, Hin].
  apply pool_fold_keeps_error. unfold pool_step. rewrite Hi, Hf. cbn [snd].
  destruct (snd st); eauto.
Qed.

(** When every task succeeds, the slots of the tasks that ran hold their
    values, whatever the order, and no error is recorded. *)
Lemma pool_fold_success vs schedule :
  Forall2 (fun a v => f a = inr v) l vs ->
  let st := fold_left (pool_step f l) schedule (replicate (length l) None, None) in
  snd st = None /\
  length (fst st) = length l /\
  forall (j : nat) v, vs !! j = Some v ->
    fst st !! j = Some (if bool_decide (j ∈ schedule) then Some v else None).
Proof.
  intros Hall. induction schedule as [|i schedule IH] using rev_ind.
  - cbn. split; [reflexivity|]. split; [apply length_replicate|].
    intros j v Hj. apply lookup_replicate_2.
    rewrite (Forall2_length _ _ _ Hall). eapply lookup_lt_Some, Hj.
  - rewrite fold_left_app. cbn [fold_left].
    cbv zeta in IH. destruct IH as (Herr & Hlen & Hslots).
    set (st := fold_left (pool_step f l) schedule (replicate (length l) None, None)) in *.
    unfold pool_step. destruct (l !! i) as [a|] eqn:Hi.
    + destruct (Forall2_lookup_l _ _ _ _ _ Hall Hi) as (vi & Hvi & Hfa).
      rewrite Hfa. cbn [fst snd]. split; [exact Herr|].
      split; [rewrite length_insert; exact Hlen|].
      intros j v Hj. destruct (decide (i = j)) as [-> | Hne].
      * rewrite list_lookup_insert_eq
          by (rewrite Hlen; eapply lookup_lt_Some, Hi).
        rewrite bool_decide_eq_true_2
          by (apply elem_of_app; right; apply list_elem_of_singleton; reflexivity).
        congruence.
      * rewrite list_lookup_insert_ne by exact Hne.
        rewrite (Hslots j v Hj). f_equal.
        rewrite (bool_decide_ext (j ∈ schedule) (j ∈ schedule ++ [i])); [reflexivity|].
        rewrite elem_of_app, list_elem_of_singleton. intuition congruence.
    + split; [exact Herr|]. split; [exact Hlen|].
      intros j v Hj. rewrite (Hslots j v Hj). f_equal.
      assert (Hji : j <> i).
      { intros ->. destruct (Forall2_lookup_r _ _ _ _ _ Hall Hj) as (a & Ha & _).
        congruence. }
      rewrite (bool_decide_ext (j ∈ schedule) (j ∈ schedule ++ [i])); [reflexivity|].
      rewrite elem_of_app, list_elem_of_singleton. intuition congruence.
Qed.

Lemma all_scheduled_true schedule :
  (forall i : nat, (i < length l)%nat -> In i schedule) ->
  forallb (fun i => bool_decide (i ∈ schedule)) (seq 0 (length l)) = true.
Proof.
  intros Hall. apply forallb_forall. intros i Hi.
  apply in_seq in Hi. apply bool_decide_eq_true_2, list_elem_of_In, Hall. lia.
Qed.

(** Every schedule that runs all the tasks yields the values in the order
    of the inputs. *)
Lemma pool_map_success vs schedule :
  Forall2 (fun a v => f a = inr v) l vs ->
  (forall i : nat, (i < length l)%nat -> In i schedule) ->
  pool_map f l schedule = Some (inr vs).
Proof.
  intros Hall Hsched. unfold pool_map.
  rewrite (all_scheduled_true schedule Hsched).
  destruct (pool_fold_success vs schedule Hall) as (Herr & Hlen & Hslots).
  rewrite Herr.
  assert (Hfst : fst (fold_left (pool_step f l) schedule (replicate (length l) None, None))
                 = Some <$> vs).
  { apply list_eq. intros j. rewrite list_lookup_fmap.
    destruct (vs !! j) as [v|] eqn:Hj.
    - rewrite (Hslots j v Hj).
      rewrite bool_decide_eq_true_2; [reflexivity|].
      apply list_elem_of_In, Hsched. rewrite (Forall2_length _ _ _ Hall). eapply lookup_lt_Some, Hj.
    - apply lookup_ge_None. rewrite Hlen, (Forall2_length _ _ _ Hall).
      apply lookup_ge_None, Hj. }
  rewrite Hfst. rewrite mapM_fmap_Some by reflexivity. reflexivity.
Qed.

(** A failure of any task that runs makes [map] raise. *)
Lemma pool_map_failure schedule :
  Exists (fun a => raises (f a)) l ->
  (forall i : nat, (i < length l)%nat -> In i schedule) ->
  exists e, pool_map f l schedule = Some (inl e).
Proof.
  intros Hex Hsched. unfold pool_map.
  rewrite (all_scheduled_true schedule Hsched).
  apply Exists_exists in Hex. destruct Hex as (a & Ha & e & He).
  apply list_elem_of_lookup in Ha. destruct Ha as (i & Hi).
  assert (Hin : In i schedule) by (apply Hsched; eapply lookup_lt_Some, Hi).
  destruct (pool_fold_failure schedule (replicate (length l) None, None) i a e Hin Hi He)
    as (e' & He').
  rewrite He'. exists e'. reflexivity.
Qed.

(** While a task has not run, [map] does not return. *)
Lemma pool_map_incomplete schedule (i : nat) :
  (i < length l)%nat -> ~ In i schedule -> pool_map f l schedule = None.
Proof.
  intros Hi Hnot. unfold pool_map.
  destruct (forallb _ _) eqn:Hall; [|reflexivity].
  exfalso. apply Hnot. rewrite forallb_forall in Hall.
  specialize (Hall i). rewrite in_seq in Hall.
  apply list_elem_of_In. eapply bool_decide_eq_true_1, Hall. lia.
Qed.

Lemma all_succeed_or_fail :
  (exists vs, Forall2 (fun a v => f a = inr v) l vs) \/
  Exists (fun a => raises (f a)) l.
Proof.
  induction l as [|a l' IH].
  - left. exists []. constructor.
  - destruct (f a) as [e | v] eqn:Hfa.
    + right. apply Exists_cons_hd. exists e. exact Hfa.
    + destruct IH as [(vs & Hvs) | Hex].
      * left. exists (v :: vs). constructor; assumption.
      * right. apply Exists_cons_tl. exact Hex.
Qed.

End PoolFacts.

(** ** Orientation search *)

Section OrientationSearchFacts.

Variable MetricEvaluate : Euler3DTransform -> result R.
Variable tx : Euler3DTransform.

Local Abbreviation g := (fun o => evaluate_metric MetricEvaluate o tx).

Implicit Types (all_orientations : list (string * orientation))
  (schedule : list nat) (vs : list R) (os : list orientation).

Lemma SetRotation_same it o :
  translation it = translation tx -> center it = center tx ->
  SetRotation it o = SetRotation tx o.
Proof. unfold SetRotation. intros -> ->. reflexivity. Qed.

(** [np.argmin] followed by the list access selects the first candidate of
    least value. *)
Lemma argmin_from_pick vs : forall os (pre : list orientation) bi ob bv,
  length os = length vs ->
  pre !! bi = Some ob ->
  (pre ++ os) !! argmin_from bi bv (length pre) vs
  = Some (fst (pick (ob, bv) (zip os vs))).
Proof.
  induction vs as [|v vs IH]; intros os pre bi ob bv Hlen Hbi.
  - destruct os; [|discriminate]. cbn. rewrite app_nil_r. exact Hbi.
  - destruct os as [|o os]; [discriminate|]. injection Hlen as Hlen.
    cbn [argmin_from zip zip_with]. unfold pick. cbn [min_from snd].
    replace (pre ++ o :: os) with ((pre ++ [o]) ++ os)
      by (rewrite <- app_assoc; reflexivity).
    replace (S (length pre)) with (length (pre ++ [o]))
      by (rewrite length_app; simpl; lia).
    destruct (Rlt_dec v bv).
    + replace (length pre) with (length pre + 0)%nat at 1 by lia.
      apply (IH os (pre ++ [o]) _ o v Hlen).
      rewrite lookup_app_r by lia. rewrite Nat.add_comm, Nat.add_sub. reflexivity.
    + apply (IH os (pre ++ [o]) bi ob bv Hlen).
      apply lookup_app_l_Some, Hbi.
Qed.

Lemma parallel_search_success all_orientations schedule v0 vs :
  g (0, 0, 0) = inr v0 ->
  Forall2 (fun o v => g o = inr v) (map snd all_orientations) vs ->
  (forall i : nat, (i < length (orientations_list_of all_orientations))%nat ->
     In i schedule) ->
  parallel_search MetricEvaluate tx all_orientations schedule
  = Some (inr (fst (pick ((0, 0, 0), v0) (zip (map snd all_orientations) vs)))).
Proof.
  intros H0 Hall Hsched. unfold parallel_search.
  rewrite (pool_map_success g (orientations_list_of all_orientations) (v0 :: vs))
    by (try exact Hsched; constructor; assumption).
  cbn [mbind option_bind bind np_argmin ret]. f_equal.
  unfold orientations_list_of.
  pose proof (argmin_from_pick vs (map snd all_orientations) [(0, 0, 0)] 0%nat
                (0, 0, 0) v0 (Forall2_length _ _ _ Hall) eq_refl) as Hpick.
  cbn [app length] in Hpick.
  match goal with
  | |- match ?x with _ => _ end = _ =>
      replace x
        with (Some (fst (pick ((0, 0, 0), v0) (zip (map snd all_orientations) vs))))
        by (symmetry; exact Hpick)
  end.
  reflexivity.
Qed.

Lemma parallel_search_failure all_orientations schedule :
  Exists (fun o => raises (g o)) (orientations_list_of all_orientations) ->
  (forall i : nat, (i < length (orientations_list_of all_orientations))%nat ->
     In i schedule) ->
  exists e, parallel_search MetricEvaluate tx all_orientations schedule = Some (inl e).
Proof.
  intros Hex Hsched. unfold parallel_search.
  destruct (pool_map_failure g _ schedule Hex Hsched) as (e & He).
  rewrite He. exists e. reflexivity.
Qed.

Lemma search_loop_success all_orientations : forall vs it bo bv,
  translation it = translation tx -> center it = center tx ->
  Forall2 (fun o v => g o = inr v) (map snd all_orientations) vs ->
  exists it',
    foldM (search_body MetricEvaluate) all_orientations (it, bo, bv)
    = inr (it', fst (pick (bo, bv) (zip (map snd all_orientations) vs)),
           snd (pick (bo, bv) (zip (map snd all_orientations) vs))).
Proof.
  induction all_orientations as [|item items IH]; intros vs it bo bv Ht Hc Hall.
  - inversion Hall; subst. exists it. reflexivity.
  - cbn [map] in Hall. inversion Hall as [|o v os vs' Hv Hrest]; subst.
    cbn [foldM search_body]. rewrite (SetRotation_same it (snd item) Ht Hc).
    unfold evaluate_metric in Hv. rewrite Hv. cbn [bind map zip zip_with].
    unfold pick. cbn [min_from snd].
    destruct (Rlt_dec v bv); cbn [bind ret]; apply (IH vs'); try reflexivity; exact Hrest.
Qed.

Lemma search_loop_failure all_orientations : forall it bo bv,
  translation it = translation tx -> center it = center tx ->
  Exists (fun o => raises (g o)) (map snd all_orientations) ->
  raises (foldM (search_body MetricEvaluate) all_orientations (it, bo, bv)).
Proof.
  induction all_orientations as [|item items IH]; intros it bo bv Ht Hc Hex.
  - inversion Hex.
  - cbn [foldM search_body]. rewrite (SetRotation_same it (snd item) Ht Hc).
    destruct (MetricEvaluate (SetRotation tx (snd item))) as [e | v] eqn:Hv.
    + exists e. reflexivity.
    + cbn [map] in Hex. inversion Hex as [? ? (e & He) | ? ? Hex']; subst.
      * unfold evaluate_metric in He. congruence.
      * cbn [bind]. destruct (Rlt_dec v bv); cbn [bind ret]; apply IH;
          try reflexivity; exact Hex'.
Qed.

Lemma sequential_search_success all_orientations v0 vs :
  g (0, 0, 0) = inr v0 ->
  Forall2 (fun o v => g o = inr v) (map snd all_orientations) vs ->
  exists st,
    sequential_search MetricEvaluate (translation tx) (center tx) all_orientations
    = inr st /\
    best_orientation_of st
    = fst (pick ((0, 0, 0), v0) (zip (map snd all_orientations) vs)).
Proof.
  intros H0 Hall. unfold sequential_search.
  change (CenteredTransformInitializer (translation tx) (center tx))
    with (SetRotation tx (0, 0, 0)).
  unfold evaluate_metric in H0. rewrite H0. cbn [bind].
  destruct (search_loop_success all_orientations vs (SetRotation tx (0, 0, 0))
              (0, 0, 0) v0 eq_refl eq_refl Hall) as (it' & Hit).
  eexists. split; [exact Hit | reflexivity].
Qed.

Lemma sequential_search_failure all_orientations :
  Exists (fun o => raises (g o)) (orientations_list_of all_orientations) ->
  raises (sequential_search MetricEvaluate (translation tx) (center tx) all_orientations).
Proof.
  intros Hex. unfold sequential_search.
  change (CenteredTransformInitializer (translation tx) (center tx))
    with (SetRotation tx (0, 0, 0)).
  destruct (MetricEvaluate (SetRotation tx (0, 0, 0))) as [e | v0] eqn:H0.
  - exists e. reflexivity.
  - cbn [bind]. apply search_loop_failure; try reflexivity.
    unfold orientations_list_of in Hex.
    inversion Hex as [? ? (e & He) | ? ? Hex']; subst; [|exact Hex'].
    unfold evaluate_metric in He. congruence.
Qed.

(** The selected candidate is among the evaluated ones and none has a
    smaller value. *)
Lemma pick_spec os vs o0 v0 :
  Forall2 (fun o v => g o = inr v) (o0 :: os) (v0 :: vs) ->
  let best := pick (o0, v0) (zip os vs) in
  In (fst best) (o0 :: os) /\
  g (fst best) = inr (snd best) /\
  forall o v, In o (o0 :: os) -> g o = inr v -> snd best <= v.
Proof.
  intros Hall best.
  assert (Hzip : forall o v, In (o, v) (zip (o0 :: os) (v0 :: vs)) -> g o = inr v).
  { clear best. induction Hall as [|o' v' os' vs' Hov _ IH]; [intros ? ? []|].
    intros o v [Heq | Hin]; [injection Heq as <- <-; exact Hov | apply IH, Hin]. }
  assert (Hpair : forall o, In o (o0 :: os) -> exists v, In (o, v) (zip (o0 :: os) (v0 :: vs))).
  { clear best Hzip. induction Hall as [|o' v' os' vs' Hov _ IH]; [intros ? []|].
    intros o [<- | Hin]; [exists v'; left; reflexivity|].
    destruct (IH o Hin) as (v & Hv). exists v. right. exact Hv. }
  pose proof (min_from_In snd (o0, v0) (zip os vs)) as Hin.
  pose proof (min_from_le snd (o0, v0) (zip os vs)) as Hle.
  fold (pick (o0, v0) (zip os vs)) in Hin, Hle. fold best in Hin, Hle.
  change ((o0, v0) :: zip os vs) with (zip (o0 :: os) (v0 :: vs)) in Hin, Hle.
  destruct best as [ob vb] eqn:Hb. cbn [fst snd] in *.
  split; [|split].
  - clear -Hin. revert Hin. generalize (o0 :: os) (v0 :: vs).
    induction l as [|o' l' IH]; intros [|v' l0]; cbn; try tauto.
    intros [Heq | Hin]; [left; congruence | right; eapply IH, Hin].
  - apply Hzip, Hin.
  - intros o v Ho Hv. destruct (Hpair o Ho) as (v' & Hv').
    pose proof (Hzip o v' Hv') as Hg. rewrite Hg in Hv. injection Hv as <-.
    rewrite List.Forall_forall in Hle. apply (Hle (o, v') Hv').
Qed.

(** C9. For every schedule that runs all the evaluations, the parallel
    search selects an orientation exactly when the sequential loop does,
    and it is the same one; when no evaluation raises, an orientation is
    selected. *)
Theorem parallel_search_agrees_with_sequential all_orientations schedule :
  (forall i : nat, (i < length (orientations_list_of all_orientations))%nat ->
     In i schedule) ->
  (forall o,
     parallel_search MetricEvaluate tx all_orientations schedule = Some (inr o) <->
     exists st,
       sequential_search MetricEvaluate (translation tx) (center tx) all_orientations
       = inr st /\ best_orientation_of st = o) /\
  (Forall (fun o => succeeds (g o)) (orientations_list_of all_orientations) ->
   exists o, parallel_search MetricEvaluate tx all_orientations schedule = Some (inr o)).
Proof.
  intros Hsched.
  destruct (all_succeed_or_fail g (orientations_list_of all_orientations))
    as [(vs & Hall) | Hex].
  - unfold orientations_list_of in Hall.
    inversion Hall as [|o0 v0 os vs' H0 Hrest]; subst.
    pose proof (parallel_search_success all_orientations schedule v0 vs' H0 Hrest Hsched)
      as Hpar.
    destruct (sequential_search_success all_orientations v0 vs' H0 Hrest)
      as (st & Hseq & Hbest).
    split.
    + intros o. rewrite Hpar, Hseq. split.
      * intros Heq. exists st. split; [reflexivity|]. congruence.
      * intros (st' & Hst' & Ho). congruence.
    + intros _. eexists. exact Hpar.
  - destruct (parallel_search_failure all_orientations schedule Hex Hsched) as (e & Hpar).
    destruct (sequential_search_failure all_orientations Hex) as (e' & Hseq).
    split.
    + intros o. rewrite Hpar, Hseq. split; [discriminate|].
      intros (st & Hst & _). discriminate.
    + intros Hok. exfalso. apply Exists_exists in Hex. destruct Hex as (o & Ho & e0 & He0).
      rewrite Forall_forall in Hok. destruct (Hok o Ho) as (v & Hv). congruence.
Qed.

(** C8, as amended.  The exploration has no per-candidate failure
    handling: when the evaluation of any candidate raises, every task is
    still run but the parallel map raises, as does the sequential loop,
    and no orientation is selected; when no evaluation raises, the
    orientation selected is a candidate of least metric value among all
    the candidates. *)
Theorem exploration_failure_aborts_batch all_orientations schedule :
  (forall i : nat, (i < length (orientations_list_of all_orientations))%nat ->
     In i schedule) ->
  (Exists (fun o => raises (g o)) (orientations_list_of all_orientations) ->
   (exists e, parallel_search MetricEvaluate tx all_orientations schedule = Some (inl e)) /\
   raises (sequential_search MetricEvaluate (translation tx) (center tx) all_orientations)) /\
  (Forall (fun o => succeeds (g o)) (orientations_list_of all_orientations) ->
   exists o v,
     parallel_search MetricEvaluate tx all_orientations schedule = Some (inr o) /\
     In o (orientations_list_of all_orientations) /\
     g o = inr v /\
     forall o' v', In o' (orientations_list_of all_orientations) ->
       g o' = inr v' -> v <= v').
Proof.
  intros Hsched. split.
  - intros Hex. split.
    + apply parallel_search_failure; assumption.
    + apply sequential_search_failure; assumption.
  - intros Hok.
    destruct (all_succeed_or_fail g (orientations_list_of all_orientations))
      as [(vs & Hall) | Hex].
    + unfold orientations_list_of in Hall |- *.
      inversion Hall as [|o0 v0 os vs' H0 Hrest]; subst.
      destruct (pick_spec (map snd all_orientations) vs' (0, 0, 0) v0 Hall)
        as (Hin & Hval & Hmin).
      eexists. eexists. split; [|split; [exact Hin | split; [exact Hval | exact Hmin]]].
      apply parallel_search_success; assumption.
    + exfalso. apply Exists_exists in Hex. destruct Hex as (o & Ho & e0 & He0).
      rewrite Forall_forall in Hok. destruct (Hok o Ho) as (v & Hv). congruence.
Qed.

End OrientationSearchFacts.

Section OrientationSearchExamples.

Import Examples.

Lemma all_scheduled_3 (i : nat) : (i < 3)%nat -> In i [2; 0; 1]%nat.
Proof. intros H. destruct i as [|[|[|i]]]; simpl; auto. lia. Defined.

Lemma failing_metric_raises :
  raises (evaluate_metric failing_metric (0, 0, PI) example_tx).
Proof.
  unfold evaluate_metric, failing_metric. cbn [SetRotation rotation snd].
  pose proof PI_RGT_0. destruct (Rlt_dec 0 PI); [|lra].
  exists RuntimeError. reflexivity.
Defined.

(** Counterexample to C8 as stated: with one failing candidate the
    specified exploration would rank the two others and select (0, pi, 0);
    the parallel map raises instead and the sequential loop raises too. *)
Lemma exploration_failure_not_isolated :
  raises (evaluate_metric failing_metric (0, 0, PI) example_tx) /\
  exploration_excluding_failures failing_metric example_tx example_orientations
  = inr (0, PI, 0) /\
  (exists e, parallel_search failing_metric example_tx example_orientations [2; 0; 1]%nat
             = Some (inl e)) /\
  raises (sequential_search failing_metric (translation example_tx) (center example_tx)
            example_orientations).
Proof.
  pose proof PI_RGT_0 as Hpi.
  assert (Hex : Exists (fun o => raises (evaluate_metric failing_metric o example_tx))
                  (orientations_list_of example_orientations)).
  { apply Exists_cons_tl, Exists_cons_hd. exact failing_metric_raises. }
  split; [exact failing_metric_raises|]. split; [|split].
  - unfold exploration_excluding_failures, evaluate_metric, failing_metric.
    cbn [orientations_list_of example_orientations map snd omap list_omap
         SetRotation rotation fst].
    destruct (Rlt_dec 0 0); [lra|]. destruct (Rlt_dec 0 PI); [|lra].
    unfold raise, ret, pick. cbn [min_from snd fst].
    destruct (Rlt_dec (5 - PI) (5 - 0)); [reflexivity | lra].
  - apply parallel_search_failure; [exact Hex | exact all_scheduled_3].
  - apply sequential_search_failure. exact Hex.
Qed.

Lemma exploration_failure_aborts_batch_witness :
  exists e, parallel_search failing_metric example_tx example_orientations [2; 0; 1]%nat
            = Some (inl e).
Proof.
  apply (exploration_failure_aborts_batch failing_metric example_tx
           example_orientations [2; 0; 1]%nat).
  - exact all_scheduled_3.
  - apply Exists_cons_tl, Exists_cons_hd. exact failing_metric_raises.
Defined.

Lemma parallel_search_agrees_with_sequential_witness :
  exists o, parallel_search example_metric example_tx example_orientations [2; 0; 1]%nat
            = Some (inr o).
Proof.
  apply (parallel_search_agrees_with_sequential example_metric example_tx
           example_orientations [2; 0; 1]%nat).
  - exact all_scheduled_3.
  - repeat constructor; eexists; reflexivity.
Defined.

End OrientationSearchExamples.

(** ** Worked examples *)

Section WorkedExamples.

Import Examples.

Example setup_example :
  setup [P3 1 2 3; P3 0 0 1]
  = ([Row (-2 * 1) (-2 * 2) (-2 * 3) 1; Row (-2 * 0) (-2 * 0) (-2 * 1) 1],
     [- (1 * 1 + 2 * 2 + 3 * 3); - (0 * 0 + 0 * 0 + 1 * 1)]).
Proof. rewrite setup_eq. reflexivity. Qed.

Example parallel_search_example :
  parallel_search example_metric example_tx example_orientations [2; 0; 1]%nat
  = Some (inr (0, PI, 0)).
Proof.
  rewrite (parallel_search_success example_metric example_tx example_orientations
             [2; 0; 1]%nat (5 - 0) [5 - 0; 5 - PI]);
    [| reflexivity | repeat constructor | exact all_scheduled_3].
  pose proof PI_RGT_0. unfold pick.
  cbn [example_orientations map snd zip zip_with min_from fst]. decide_R.
  cbn [min_from fst snd]. decide_R. reflexivity.
Qed.

Example sequential_search_example :
  sequential_search example_metric (1, 2, 3) (4, 5, 6) example_orientations
  = inr (Euler3D (0, PI, 0) (1, 2, 3) (4, 5, 6), (0, PI, 0), 5 - PI).
Proof.
  pose proof PI_RGT_0.
  unfold sequential_search, example_metric, example_orientations.
  cbn [bind ret foldM search_body CenteredTransformInitializer SetRotation rotation
       translation center fst snd].
  decide_R. cbn [bind ret foldM search_body CenteredTransformInitializer SetRotation rotation
       translation center fst snd]. decide_R. reflexivity.
Qed.

Example exploitation_example :
  exploitation_step example_execute two_candidates example_tx
  = inr (Euler3D (0, PI, 0) (0, 0, 0) (4, 5, 6), 7 - PI).
Proof.
  pose proof PI_RGT_0.
  unfold exploitation_step. rewrite final_results_eq.
  cbn [two_candidates length Nat.min sort_by insert_by fst]. decide_R.
  cbn [take firstn map refined_from multires_registration example_execute SetParameters
       example_tx center rotation fst snd py_min min_from ret].
  decide_R. reflexivity.
Qed.

Example registration_errors_example :
  registration_errors shift_x fixed_fiducials moving_fiducials
  = inr (5 / 2, 5 / 2, 0, 5, [0; 5]).
Proof.
  unfold registration_errors, fixed_fiducials, moving_fiducials.
  cbn [length Nat.eqb residuals zip_with shift_x].
  assert (E0 : euclidean_distance [0 + 1; 0] [1; 0] = 0).
  { unfold euclidean_distance. cbn [zip_with Rsum].
    replace ((0 + 1 - 1) ^ 2 + ((0 - 0) ^ 2 + 0)) with 0 by ring. apply sqrt_0. }
  assert (E1 : euclidean_distance [1 + 1; 1] [5; 5] = 5).
  { unfold euclidean_distance. cbn [zip_with Rsum].
    replace ((1 + 1 - 5) ^ 2 + ((1 - 5) ^ 2 + 0)) with (5 ^ 2) by ring.
    apply sqrt_pow2. lra. }
  rewrite E0, E1. unfold ret, mean, std, mean, list_min, list_max.
  cbn [length map Rsum fold_left INR].
  assert (Em : (0 + (5 + 0)) / (1 + 1) = 5 / 2) by lra. rewrite Em.
  replace ((0 - 5 / 2) ^ 2 + ((5 - 5 / 2) ^ 2 + 0)) with ((5 / 2) ^ 2 * (1 + 1)) by field.
  replace ((5 / 2) ^ 2 * (1 + 1) / (1 + 1)) with ((5 / 2) ^ 2) by field.
  rewrite sqrt_pow2 by lra.
  rewrite Rmin_left, Rmax_right by lra. reflexivity.
Qed.

(** A stable sort: the two items of key 1 keep their order. *)
Example sort_by_example :
  sort_by fst [(3, 0%nat); (1, 1%nat); (2, 2%nat); (1, 3%nat)]
  = [(1, 1%nat); (1, 3%nat); (2, 2%nat); (3, 0%nat)].
Proof.
  cbn [sort_by insert_by fst]. decide_R. cbn [insert_by fst]. decide_R.
  cbn [insert_by fst]. decide_R. cbn [insert_by fst]. decide_R. reflexivity.
Qed.

(** The first of two equal minima. *)
Example np_argmin_example : np_argmin [3; 1; 2; 1] = inr 1%nat.
Proof.
  cbn [np_argmin argmin_from]. decide_R. cbn [argmin_from]. decide_R. reflexivity.
Qed.

Example np_argmin_empty : np_argmin [] = inl ValueError.
Proof. reflexivity. Qed.

Example py_min_empty : py_min (A := Euler3DTransform * R) snd [] = inl ValueError.
Proof. reflexivity. Qed.

(** The pool under an out-of-order schedule: all succeed, one fails, one
    task never runs. *)
Example pool_map_all_succeed :
  pool_map (fun n : nat => if Nat.eqb n 7 then raise RuntimeError else ret (n + 1)%nat)
    [1; 2; 3]%nat [2; 0; 1]%nat
  = Some (inr [2; 3; 4]%nat).
Proof. vm_compute. reflexivity. Qed.

Example pool_map_one_fails :
  pool_map (fun n : nat => if Nat.eqb n 2 then raise RuntimeError else ret (n + 1)%nat)
    [1; 2; 3]%nat [2; 0; 1]%nat
  = Some (inl RuntimeError).
Proof. vm_compute. reflexivity. Qed.

Example pool_map_pending :
  pool_map (fun n : nat => ret (n + 1)%nat) [1; 2; 3]%nat [2; 0]%nat = None.
Proof. vm_compute. reflexivity. Qed.

End WorkedExamples.

(** * Further properties *)

Import SphereFitMore InitializationMore.

(** ** Sphere fit: what a least-squares answer looks like *)

Section SphereFitMoreFacts.

Implicit Types (p t : point3) (x res : vec4) (points : list point3).

Lemma algebraic_distance_sq_distance res p :
  algebraic_distance res p
  = sq_distance_to_centre res p - (centre_norm_sq res - x3 res).
Proof.
  rewrite centre_norm_sq_eq. unfold algebraic_distance, sq_distance_to_centre. ring.
Qed.

Lemma lstsq_radius_sq_mean points res :
  points <> [] ->
  is_lstsq (setup points).1 (setup points).2 res ->
  centre_norm_sq res - x3 res
  = Rsum (map (sq_distance_to_centre res) points) / INR (length points).
Proof.
  intros Hne Hls.
  pose proof (lstsq_distances_sum_zero points res Hne Hls) as Hz.
  rewrite (map_ext (algebraic_distance res)
             (fun p => sq_distance_to_centre res p - (centre_norm_sq res - x3 res))) in Hz
    by (intros p; apply algebraic_distance_sq_distance).
  rewrite Rsum_map_minus_const in Hz.
  pose proof (INR_length_pos points Hne) as Hm.
  field_simplify_eq; [lra | lra].
Qed.

(** X1. For a non-empty point list and a least-squares answer of the
    solver, the radius the cell reports is the root of the mean squared
    distance of the points to the reported centre; in particular it is a
    number, never NaN. *)
Theorem sphere_fit_radius_is_rms_distance
    (lstsq : list row4 -> list R -> result vec4) points res :
  points <> [] ->
  lstsq (setup points).1 (setup points).2 = inr res ->
  is_lstsq (setup points).1 (setup points).2 res ->
  sphere_fit lstsq points
  = inr (Report (x0 res, x1 res, x2 res)
           (Num (sqrt (Rsum (map (sq_distance_to_centre res) points)
                       / INR (length points))))).
Proof.
  intros Hne Hsolve Hls.
  rewrite (sphere_fit_unfold lstsq points res Hsolve). unfold report_of.
  rewrite (lstsq_radius_sq_mean points res Hne Hls).
  rewrite np_sqrt_nonneg; [reflexivity|].
  rewrite <- (lstsq_radius_sq_mean points res Hne Hls).
  pose proof (lstsq_radius_sq_nonneg points res Hne Hls). lra.
Qed.





End SphereFitMoreFacts.

Section SphereFitMoreExamples.

Import Examples.

Lemma sphere_fit_radius_is_rms_distance_witness :
  sphere_fit sphere_lstsq sphere_points
  = inr (Report (1, 2, 3)
           (Num (sqrt (Rsum (map (sq_distance_to_centre (V4 1 2 3 10)) sphere_points)
                       / INR (length sphere_points))))).
Proof.
  apply (sphere_fit_radius_is_rms_distance sphere_lstsq sphere_points (V4 1 2 3 10)).
  - discriminate.
  - reflexivity.
  - exact sphere_points_lstsq.
Defined.


End SphereFitMoreExamples.

(** ** Orientation search: the loop's result and the state it leaves *)

Section SearchMoreFacts.

Variable MetricEvaluate : Euler3DTransform -> result R.

Implicit Types (all_orientations : list (string * orientation)) (t c : R * R * R).

Lemma last_cons_default {A : Type} (x : A) (l : list A) (d d' : A) :
  List.last (x :: l) d = List.last (x :: l) d'.
Proof.
  revert x. induction l as [|y l IH]; intros x; [reflexivity|].
  change (List.last (y :: l) d = List.last (y :: l) d'). apply IH.
Qed.

(** A loop that completes leaves the transform at the last orientation
    tried, with the translation and the centre it started from. *)
Lemma search_loop_final_transform all_orientations : forall it bo bv st,
  foldM (search_body MetricEvaluate) all_orientations (it, bo, bv) = inr st ->
  translation (fst (fst st)) = translation it /\
  center (fst (fst st)) = center it /\
  rotation (fst (fst st)) = List.last (map snd all_orientations) (rotation it).
Proof.
  induction all_orientations as [|item items IH]; intros it bo bv st Hrun.
  - injection Hrun as <-. auto.
  - cbn [foldM search_body] in Hrun.
    destruct (MetricEvaluate (SetRotation it (snd item))) as [e | v]; [discriminate|].
    cbn [bind] in Hrun.
    assert (Hnext : exists bo' bv',
               foldM (search_body MetricEvaluate) items (SetRotation it (snd item), bo', bv')
               = inr st).
    { destruct (Rlt_dec v bv); cbn [bind ret] in Hrun; eauto. }
    destruct Hnext as (bo' & bv' & Hnext).
    destruct (IH _ _ _ _ Hnext) as (Ht & Hc & Hr).
    split; [exact Ht|]. split; [exact Hc|].
    rewrite Hr. destruct items as [|item' items']; [reflexivity|].
    cbn [map].
    etransitivity; [apply (last_cons_default _ _ _ (rotation it)) | reflexivity].
Qed.

(** X3. When no evaluation raises, the sequential search returns an
    orientation among the identity and the listed ones, together with its
    metric value, and no candidate has a smaller metric value. *)
Theorem sequential_search_returns_minimum t c all_orientations :
  Forall (fun o => succeeds (MetricEvaluate (Euler3D o t c)))
    (orientations_list_of all_orientations) ->
  exists it best_orientation best_similarity_value,
    sequential_search MetricEvaluate t c all_orientations
    = inr (it, best_orientation, best_similarity_value) /\
    In best_orientation (orientations_list_of all_orientations) /\
    MetricEvaluate (Euler3D best_orientation t c) = inr best_similarity_value /\
    forall o v, In o (orientations_list_of all_orientations) ->
      MetricEvaluate (Euler3D o t c) = inr v -> best_similarity_value <= v.
Proof.
  intros Hok. set (tx := Euler3D (0, 0, 0) t c).
  destruct (all_succeed_or_fail (fun o => evaluate_metric MetricEvaluate o tx)
              (orientations_list_of all_orientations)) as [(vs & Hall) | Hex].
  - unfold orientations_list_of in Hall |- *.
    inversion Hall as [|o0 v0 os vs' H0 Hrest]; subst.
    destruct (search_loop_success MetricEvaluate tx all_orientations vs' tx (0, 0, 0) v0
                eq_refl eq_refl Hrest) as (it' & Hloop).
    destruct (pick_spec MetricEvaluate tx (map snd all_orientations) vs' (0, 0, 0) v0 Hall)
      as (Hin & Hval & Hmin).
    eexists. eexists. eexists. split; [|split; [exact Hin | split; [exact Hval | exact Hmin]]].
    unfold sequential_search. change (CenteredTransformInitializer t c) with tx.
    change (MetricEvaluate tx) with (evaluate_metric MetricEvaluate (0, 0, 0) tx).
    rewrite H0. cbn [bind]. exact Hloop.
  - exfalso. apply Exists_exists in Hex. destruct Hex as (o & Ho & e0 & He0).
    rewrite Forall_forall in Hok. destruct (Hok o Ho) as (v & Hv).
    unfold evaluate_metric, SetRotation, tx in He0. cbn [translation center] in He0.
    congruence.
Qed.

(** X4. The search leaves [initial_transform] rotated to the last
    orientation tried, not to the best one; the cell that follows sets the
    rotation to the best orientation, so the registration starts from the
    initializer's translation and centre with the best orientation. *)
Theorem search_then_register_starts_from_best
    (Execute : Euler3DTransform -> Euler3DTransform * R) t c all_orientations st :
  sequential_search MetricEvaluate t c all_orientations = inr st ->
  rotation (fst (fst st)) = last_orientation all_orientations /\
  register_from_best Execute st
  = multires_registration Execute (Euler3D (best_orientation_of st) t c).
Proof.
  unfold sequential_search. intros Hrun.
  destruct (MetricEvaluate (CenteredTransformInitializer t c)) as [e | v0]; [discriminate|].
  cbn [bind] in Hrun.
  destruct (search_loop_final_transform all_orientations _ _ _ _ Hrun) as (Ht & Hc & Hr).
  split; [exact Hr|].
  destruct st as [[it bo] bv]. cbn [fst snd] in *.
  unfold register_from_best, best_orientation_of, SetRotation. cbn [fst snd].
  rewrite Ht, Hc. reflexivity.
Qed.

End SearchMoreFacts.

(** ** Exploration and exploitation: edge cases and composition *)

Section ExploitationMoreFacts.

Variable Execute : Euler3DTransform -> Euler3DTransform * R.

Implicit Types (candidates : list (R * parameters)) (initial_transform : Euler3DTransform).

Lemma refined_from_centre initial_transform initial_transform' :
  center initial_transform = center initial_transform' ->
  refined_from Execute initial_transform = refined_from Execute initial_transform'.
Proof.
  intros Hc. unfold refined_from, SetParameters. rewrite Hc. reflexivity.
Qed.

(** X5. The exploitation step does not depend on the rotation and the
    translation that the exploration left in [initial_transform]: only its
    centre matters. *)
Theorem exploitation_ignores_explored_transform
    candidates initial_transform initial_transform' :
  center initial_transform = center initial_transform' ->
  exploitation_step Execute candidates initial_transform
  = exploitation_step Execute candidates initial_transform'.
Proof.
  intros Hc. unfold exploitation_step.
  rewrite !final_results_eq, (refined_from_centre _ _ Hc). reflexivity.
Qed.

(** X7. For a non-empty candidate list the returned result is at least as
    good as the refinement started from the candidate of least explored
    metric value (the head of the sorted list), which is what registering
    from the best grid point alone would give. *)
Theorem exploitation_beats_best_explored candidates initial_transform :
  candidates <> [] ->
  exists c0 best,
    head (sort_by fst candidates) = Some c0 /\
    In c0 candidates /\
    (forall d, In d candidates -> fst c0 <= fst d) /\
    exploitation_step Execute candidates initial_transform = inr best /\
    snd best <= snd (refined_from Execute initial_transform c0).
Proof.
  intros Hne.
  pose proof (sort_by_perm fst candidates) as Hperm.
  pose proof (sort_by_sorted fst candidates) as Hsorted.
  pose proof (sort_by_length fst candidates) as Hlen.
  destruct (sort_by fst candidates) as [|c0 rest] eqn:Hs.
  { destruct candidates; [congruence | discriminate]. }
  destruct (py_min_spec snd (final_results_of Execute candidates initial_transform)
              (final_results_nonempty Execute candidates initial_transform Hne))
    as (best & Hbest & _ & Hle).
  exists c0, best. split; [reflexivity|]. split; [|split; [|split; [exact Hbest|]]].
  - eapply Permutation_in; [symmetry; exact Hperm | left; reflexivity].
  - intros d Hd. apply (Permutation_in _ Hperm) in Hd.
    inversion Hsorted as [|? ? _ Hall]; subst.
    destruct Hd as [<- | Hd]; [lra|].
    rewrite List.Forall_forall in Hall. apply (Hall d Hd).
  - rewrite List.Forall_forall in Hle. apply Hle.
    rewrite final_results_eq, Hs.
    destruct candidates as [|c cs]; [congruence|].
    cbn [length]. destruct (length cs) as [|[|n]]; cbn; left; reflexivity.
Qed.

End ExploitationMoreFacts.

Section ExploitationExnFacts.

Variable Execute : Euler3DTransform -> result (Euler3DTransform * R).

Implicit Types (candidates : list (R * parameters)) (initial_transform : Euler3DTransform).

Lemma multires_registration_exn_eq initial_transform :
  multires_registration_exn Execute initial_transform = Execute initial_transform.
Proof.
  unfold multires_registration_exn.
  destruct (Execute initial_transform) as [e | [final_transform metric_value]]; reflexivity.
Qed.

Lemma start_of_centre initial_transform initial_transform' item :
  center initial_transform' = center initial_transform ->
  start_of initial_transform' item = start_of initial_transform item.
Proof. intros Hc. unfold start_of, SetParameters. rewrite Hc. reflexivity. Qed.

(** Every refinement returns: the loop collects the results in order. *)
Lemma exploit_foldM_success initial_transform tried : forall results it acc,
  center it = center initial_transform ->
  Forall2 (fun item r => Execute (start_of initial_transform item) = inr r) tried results ->
  exists it',
    foldM (exploit_body_exn Execute) tried (it, acc) = inr (it', acc ++ results).
Proof.
  induction tried as [|item tried IH]; intros results it acc Hc Hall;
    inversion Hall as [|? r ? results' Hr Hrest]; subst.
  - exists it. cbn [foldM]. rewrite app_nil_r. reflexivity.
  - cbn [foldM exploit_body_exn]. rewrite multires_registration_exn_eq.
    fold (start_of it item). rewrite (start_of_centre initial_transform it item Hc), Hr.
    cbn [bind ret].
    destruct (IH results' (start_of initial_transform item) (acc ++ [r])
                eq_refl Hrest) as (it' & Hfold).
    exists it'. rewrite Hfold, <- app_assoc. reflexivity.
Qed.

(** The first refinement that throws ends the loop with its error. *)
Lemma exploit_foldM_failure initial_transform pre item post e : forall results it acc,
  center it = center initial_transform ->
  Forall2 (fun c r => Execute (start_of initial_transform c) = inr r) pre results ->
  Execute (start_of initial_transform item) = inl e ->
  foldM (exploit_body_exn Execute) (pre ++ item :: post) (it, acc) = inl e.
Proof.
  induction pre as [|c pre IH]; intros results it acc Hc Hall He;
    inversion Hall as [|? r ? results' Hr Hrest]; subst.
  - cbn [app foldM exploit_body_exn]. rewrite multires_registration_exn_eq.
    fold (start_of it item). rewrite (start_of_centre initial_transform it item Hc), He.
    reflexivity.
  - cbn [app foldM exploit_body_exn]. rewrite multires_registration_exn_eq.
    fold (start_of it c). rewrite (start_of_centre initial_transform it c Hc), Hr.
    cbn [bind ret].
    apply (IH results' (start_of initial_transform c) (acc ++ [r]) eq_refl Hrest He).
Qed.

(** Either every refinement of a list returns, or there is a first one
    that throws. *)
Lemma refinements_all_or_first_failure initial_transform tried :
  (exists results,
     Forall2 (fun c r => Execute (start_of initial_transform c) = inr r) tried results) \/
  (exists pre item post results e,
     tried = pre ++ item :: post /\
     Forall2 (fun c r => Execute (start_of initial_transform c) = inr r) pre results /\
     Execute (start_of initial_transform item) = inl e).
Proof.
  induction tried as [|c tried IH].
  - left. exists []. constructor.
  - destruct (Execute (start_of initial_transform c)) as [e | r] eqn:Hc.
    + right. exists [], c, tried, [], e. repeat split; [constructor | exact Hc].
    + destruct IH as [(results & Hall) | (pre & item & post & results & e & -> & Hall & He)].
      * left. exists (r :: results). constructor; assumption.
      * right. exists (c :: pre), item, post, (r :: results), e.
        repeat split; [constructor; assumption | exact He].
Qed.

Lemma tried_nonempty candidates :
  candidates <> [] ->
  take (Nat.min 3 (length candidates)) (sort_by fst candidates) <> [].
Proof.
  intros Hne Hnil. apply (f_equal length) in Hnil.
  rewrite length_take, sort_by_length in Hnil.
  destruct candidates; [congruence | simpl in Hnil; lia].
Qed.

Lemma exploitation_step_exn_unfold candidates initial_transform :
  exploitation_step_exn Execute candidates initial_transform
  = (st <-! foldM (exploit_body_exn Execute)
              (take (Nat.min 3 (length candidates)) (sort_by fst candidates))
              (initial_transform, []) ;;
     py_min snd (snd st)).
Proof.
  unfold exploitation_step_exn. rewrite k_most_promising_sorted. reflexivity.
Qed.

(** X6. The exploitation step with a registration that may throw.  With no
    candidate it raises the [ValueError] of [min] on an empty list.
    Otherwise the refinements run in the order of the sorted list, each
    started from the transform holding the candidate's rotation and
    translation and the centre of [initial_transform]; the
    first one that throws ends the cell with its error (the candidates
    after it are not refined, the results before it are lost); if all of
    them return, the cell returns the result of least final metric value.
    So the cell raises exactly when no candidate was collected or one of
    the refinements it starts throws.  When no registration throws it is
    the exploitation step of the total model. *)
Theorem exploitation_raises_iff_empty_or_refinement_throws
    candidates initial_transform :
  let tried := take (Nat.min 3 (length candidates)) (sort_by fst candidates) in
  let start := fun item : R * parameters =>
    Euler3D (fst (snd item)) (snd (snd item)) (center initial_transform) in
  let step := exploitation_step_exn Execute candidates initial_transform in
  (candidates = [] -> step = inl ValueError) /\
  (forall pre item post e,
     tried = pre ++ item :: post ->
     Forall (fun c => succeeds (Execute (start c))) pre ->
     Execute (start item) = inl e ->
     step = inl e) /\
  (forall results,
     candidates <> [] ->
     Forall2 (fun c r => Execute (start c) = inr r) tried results ->
     step = py_min snd results /\ succeeds step) /\
  (raises step <->
   candidates = [] \/ Exists (fun c => raises (Execute (start c))) tried) /\
  (forall Execute_total,
     (forall t, Execute t = inr (Execute_total t)) ->
     step = exploitation_step Execute_total candidates initial_transform).
Proof.
  intros tried start step.
  assert (Hstart : start = start_of initial_transform) by reflexivity.
  clearbody start. subst start.
  assert (Hempty : candidates = [] -> step = inl ValueError).
  { intros ->. reflexivity. }
  assert (Hthrow : forall pre item post results e,
             tried = pre ++ item :: post ->
             Forall2 (fun c r => Execute (start_of initial_transform c) = inr r)
               pre results ->
             Execute (start_of initial_transform item) = inl e ->
             step = inl e).
  { intros pre item post results e Htried Hpre He. unfold step.
    rewrite exploitation_step_exn_unfold. fold tried. rewrite Htried.
    rewrite (exploit_foldM_failure initial_transform pre item post e results
               initial_transform [] eq_refl Hpre He).
    reflexivity. }
  assert (Hreturn : forall results,
             Forall2 (fun c r => Execute (start_of initial_transform c) = inr r)
               tried results ->
             step = py_min snd results).
  { intros results Hall. unfold step. rewrite exploitation_step_exn_unfold. fold tried.
    destruct (exploit_foldM_success initial_transform tried results
                initial_transform [] eq_refl Hall) as (it' & Hfold).
    rewrite Hfold. reflexivity. }
  split; [exact Hempty|]. split; [|split; [|split]].
  - intros pre item post e Htried Hpre He.
    assert (Hres : exists results,
               Forall2 (fun c r => Execute (start_of initial_transform c) = inr r)
                 pre results).
    { clear Htried. induction Hpre as [|c pre [r Hr] _ (results & IH)].
      - exists []. constructor.
      - exists (r :: results). constructor; assumption. }
    destruct Hres as (results & Hres).
    exact (Hthrow pre item post results e Htried Hres He).
  - intros results Hne Hall. rewrite (Hreturn results Hall).
    split; [reflexivity|].
    assert (Hresults : results <> []).
    { intros ->. inversion Hall as [Htried|]. symmetry in Htried.
      exact (tried_nonempty candidates Hne Htried). }
    destruct (py_min_spec snd results Hresults) as (best & Hbest & _).
    exists best. exact Hbest.
  - split.
    + intros [e He].
      assert (Hcases : candidates = [] \/ candidates <> [])
        by (destruct candidates; [left; reflexivity | right; discriminate]).
      destruct Hcases as [Hnil | Hne]; [left; exact Hnil | right].
      destruct (refinements_all_or_first_failure initial_transform tried)
        as [(results & Hall) | (pre & item & post & results & e' & Htried & Hpre & He')].
      * exfalso. rewrite (Hreturn results Hall) in He.
        assert (Hresults : results <> []).
        { intros ->. inversion Hall as [Htried|]. symmetry in Htried.
          exact (tried_nonempty candidates Hne Htried). }
        destruct (py_min_spec snd results Hresults) as (best & Hbest & _).
        congruence.
      * rewrite Htried. apply Exists_app. right. apply Exists_cons_hd.
        exists e'. exact He'.
    + intros [Hnil | Hex].
      * exists ValueError. apply Hempty. exact Hnil.
      * destruct (refinements_all_or_first_failure initial_transform tried)
          as [(results & Hall) | (pre & item & post & results & e' & Htried & Hpre & He')].
        -- exfalso. clear -Hex Hall.
           induction Hall as [|c r tried results Hr _ IH].
           ++ inversion Hex.
           ++ inversion Hex as [? ? [e He] | ? ? Hrest]; subst.
              ** congruence.
              ** exact (IH Hrest).
        -- exists e'. exact (Hthrow pre item post results e' Htried Hpre He').
  - intros Execute_total Htotal.
    assert (Hall : Forall2 (fun c r => Execute (start_of initial_transform c) = inr r)
                     tried (map (refined_from Execute_total initial_transform) tried)).
    { clear -Htotal. induction tried as [|c l IH]; cbn [map]; constructor; [|exact IH].
      rewrite Htotal. f_equal. unfold refined_from, multires_registration, start_of.
      destruct (Execute_total _) as [final_transform metric_value]. reflexivity. }
    rewrite (Hreturn _ Hall). unfold exploitation_step.
    rewrite final_results_eq. reflexivity.
Qed.

End ExploitationExnFacts.

(** X8. The exploration does not accumulate over runs: whatever the
    global list held before, after [Execute] it holds exactly one
    (metric value, position) pair per visited grid position, in the order
    of the visits. *)
Theorem exploration_restarts_from_empty (metric : parameters -> R)
    (grid : list parameters) (previous previous' : list (R * parameters)) :
  exploration_step metric grid previous = exploration_step metric grid previous' /\
  length (exploration_step metric grid previous) = length grid /\
  forall (i : nat) p, grid !! i = Some p ->
    exploration_step metric grid previous !! i = Some (metric p, p).
Proof.
  rewrite !exploration_step_collects. split; [reflexivity|].
  split; [apply length_map|].
  intros i p Hi. rewrite list_lookup_fmap, Hi. reflexivity.
Qed.

Section SearchMoreExamples.

Import Examples.

Lemma example_metric_succeeds :
  Forall (fun o => succeeds (example_metric (Euler3D o (1, 2, 3) (4, 5, 6))))
    (orientations_list_of example_orientations).
Proof. repeat constructor; eexists; reflexivity. Defined.

Lemma sequential_search_returns_minimum_witness :
  exists it best_orientation best_similarity_value,
    sequential_search example_metric (1, 2, 3) (4, 5, 6) example_orientations
    = inr (it, best_orientation, best_similarity_value) /\
    In best_orientation (orientations_list_of example_orientations) /\
    example_metric (Euler3D best_orientation (1, 2, 3) (4, 5, 6))
    = inr best_similarity_value /\
    forall o v, In o (orientations_list_of example_orientations) ->
      example_metric (Euler3D o (1, 2, 3) (4, 5, 6)) = inr v ->
      best_similarity_value <= v.
Proof.
  apply (sequential_search_returns_minimum example_metric (1, 2, 3) (4, 5, 6)
           example_orientations).
  exact example_metric_succeeds.
Defined.

Lemma search_then_register_starts_from_best_witness :
  rotation (Euler3D (0, PI, 0) (1, 2, 3) (4, 5, 6)) = last_orientation example_orientations /\
  register_from_best example_execute
    (Euler3D (0, PI, 0) (1, 2, 3) (4, 5, 6), (0, PI, 0), 5 - PI)
  = multires_registration example_execute (Euler3D (0, PI, 0) (1, 2, 3) (4, 5, 6)).
Proof.
  apply (search_then_register_starts_from_best example_metric example_execute
           (1, 2, 3) (4, 5, 6) example_orientations
           (Euler3D (0, PI, 0) (1, 2, 3) (4, 5, 6), (0, PI, 0), 5 - PI)).
  exact sequential_search_example.
Defined.

Lemma exploitation_ignores_explored_transform_witness :
  exploitation_step example_execute two_candidates example_tx
  = exploitation_step example_execute two_candidates (Euler3D (0, PI, PI) (7, 8, 9) (4, 5, 6)).
Proof.
  apply (exploitation_ignores_explored_transform example_execute two_candidates
           example_tx (Euler3D (0, PI, PI) (7, 8, 9) (4, 5, 6))).
  reflexivity.
Defined.

(** The better-ranked of two candidates throws: the cell ends with its
    error although the other candidate could have been refined. *)
Example exploitation_step_exn_example :
  exploitation_step_exn throwing_execute two_candidates example_tx = inl RuntimeError /\
  succeeds (throwing_execute (start_of example_tx (3, ((0, 0, 0), (0, 0, 0))))).
Proof.
  split.
  - unfold exploitation_step_exn, two_candidates.
    cbn [sort_by insert_by fst snd].
    destruct (Rle_dec 3 1) as [Hle | _]; [lra|].
    cbn [k_most_promising_of length Nat.min take foldM exploit_body_exn fst snd].
    rewrite multires_registration_exn_eq.
    unfold throwing_execute at 1, SetParameters. cbn [rotation fst snd].
    destruct (Rlt_dec 0 PI) as [_ | Hpi]; [reflexivity|].
    exfalso. apply Hpi. exact PI_RGT_0.
  - unfold throwing_execute, start_of, SetParameters. cbn [rotation fst snd].
    destruct (Rlt_dec 0 0) as [H0 | _]; [lra|]. eexists. reflexivity.
Qed.

Lemma exploitation_beats_best_explored_witness :
  exists c0 best,
    head (sort_by fst two_candidates) = Some c0 /\
    In c0 two_candidates /\
    (forall d, In d two_candidates -> fst c0 <= fst d) /\
    exploitation_step example_execute two_candidates example_tx = inr best /\
    snd best <= snd (refined_from example_execute example_tx c0).
Proof.
  apply (exploitation_beats_best_explored example_execute two_candidates example_tx).
  discriminate.
Defined.

End SearchMoreExamples.

(** ** Transforms and image geometry *)

Import Geometry PointLists.

Section GeometryFacts.

Implicit Types (p q c f m : vec3) (g : image_geometry).

Lemma vec3_eq (a0 a1 a2 b0 b1 b2 : R) :
  a0 = b0 -> a1 = b1 -> a2 = b2 -> (a0, a1, a2) = (b0, b1, b2).
Proof. intros -> -> ->. reflexivity. Qed.

(** X9. The centre of rotation built from [(sz - 1) / 2] is the midpoint
    between the physical positions of the first and of the last voxel of
    the image, for every origin, spacing and direction. *)
Theorem image_centre_is_midpoint g :
  image_centre g
  = midpoint (TransformIndexToPhysicalPoint g (0, 0, 0)%Z)
      (TransformIndexToPhysicalPoint g
         (let '(s0, s1, s2) := size g in (s0 - 1, s1 - 1, s2 - 1)%Z)).
Proof.
  destruct g as [[[o0 o1] o2] [[sp0 sp1] sp2] [[[[d00 d01] d02] [[d10 d11] d12]] [[d20 d21] d22]]
                  [[s0 s1] s2]].
  unfold image_centre, TransformIndexToPhysicalPoint,
    TransformContinuousIndexToPhysicalPoint, midpoint, index_to_vec.
  cbn [size origin spacing direction vadd vmul mat_vec vdot].
  rewrite !minus_IZR. apply vec3_eq; field.
Qed.

End GeometryFacts.

Section PointListFacts.

Context {A : Type} (f : A -> A).

(** After [i] steps the first [i] elements are transformed and the others
    are still to be read. *)
Lemma enumerate_update_from (todo : list A) : forall (done : list A) (fuel : nat),
  (length todo <= fuel)%nat ->
  enumerate_update f fuel (length done) (done ++ todo) = done ++ map f todo.
Proof.
  induction todo as [|p todo IH]; intros done fuel Hfuel.
  - cbn [map]. rewrite !app_nil_r. destruct fuel as [|fuel]; [reflexivity|].
    cbn [enumerate_update]. rewrite lookup_ge_None_2 by lia. reflexivity.
  - destruct fuel as [|fuel]; [simpl in Hfuel; lia|].
    cbn [enumerate_update]. rewrite list_lookup_middle by reflexivity.
    replace (<[length done := f p]> (done ++ p :: todo)) with ((done ++ [f p]) ++ todo).
    2:{ rewrite <- (Nat.add_0_r (length done)) at 1. rewrite insert_app_r.
        rewrite <- app_assoc. reflexivity. }
    replace (S (length done)) with (length (done ++ [f p]))
      by (rewrite length_app; simpl; lia).
    rewrite IH by (simpl in Hfuel; lia).
    rewrite <- app_assoc. reflexivity.
Qed.

(** X12. The in-place loop over [enumerate] replaces every element by its
    image exactly once: the result is the list of the images, in order and
    of the same length; steps beyond the length of the list change
    nothing. *)
Theorem enumerate_update_is_map (l : list A) (fuel : nat) :
  (length l <= fuel)%nat ->
  enumerate_update f fuel 0 l = map f l /\
  length (enumerate_update f fuel 0 l) = length l /\
  forall (i : nat) p, l !! i = Some p -> enumerate_update f fuel 0 l !! i = Some (f p).
Proof.
  intros Hfuel.
  assert (Heq : enumerate_update f fuel 0 l = map f l)
    by (apply (enumerate_update_from l [] fuel Hfuel)).
  rewrite Heq. split; [reflexivity|]. split; [apply length_map|].
  intros i p Hi. rewrite list_lookup_fmap, Hi. reflexivity.
Qed.

End PointListFacts.

Section FlattenFacts.

Implicit Types (points : list (list R)) (d : nat).

Lemma flatten_length points d :
  Forall (fun p => length p = d) points ->
  length (flatten points) = (d * length points)%nat.
Proof.
  induction 1 as [|p points Hp _ IH]; [simpl; lia|].
  unfold flatten in *. cbn [concat length]. rewrite length_app, IH, Hp. lia.
Qed.

Lemma flatten_lookup points d : forall (i j : nat) p,
  Forall (fun p => length p = d) points ->
  points !! i = Some p -> (j < d)%nat ->
  flatten points !! (i * d + j)%nat = p !! j.
Proof.
  induction points as [|q points IH]; intros i j p Hall Hi Hj; [discriminate|].
  inversion Hall as [|? ? Hq Hrest]; subst. unfold flatten in *. cbn [concat].
  destruct i as [|i].
  - injection Hi as ->. cbn [Nat.mul Nat.add]. apply lookup_app_l. lia.
  - cbn [lookup list_lookup] in Hi.
    rewrite lookup_app_r by (cbn; lia).
    replace (S i * length q + j - length q)%nat with (i * length q + j)%nat by (cbn; lia).
    apply IH; assumption.
Qed.

(** X13. Flattening points that all have [d] coordinates gives a list of
    [d] times as many numbers, with coordinate [j] of point [i] at index
    [i * d + j]; cutting the flat list back into pieces of length [d]
    recovers the points. *)
Theorem flatten_layout points d :
  Forall (fun p => length p = d) points ->
  length (flatten points) = (d * length points)%nat /\
  (forall (i j : nat) p, points !! i = Some p -> (j < d)%nat ->
     flatten points !! (i * d + j)%nat = p !! j) /\
  reshape (replicate (length points) d) (flatten points) = points.
Proof.
  intros Hall. split; [apply flatten_length; exact Hall|].
  split; [intros i j p; apply flatten_lookup; exact Hall|].
  clear -Hall. induction Hall as [|p points Hp _ IH]; [reflexivity|].
  unfold flatten in *. cbn [length replicate concat reshape].
  replace (take d (p ++ concat points)) with p
    by (rewrite <- Hp, take_app_length; reflexivity).
  replace (drop d (p ++ concat points)) with (concat points)
    by (rewrite <- Hp, drop_app_length; reflexivity).
  rewrite IH. reflexivity.
Qed.

End FlattenFacts.

(** ** Image display: rounding and slicing *)

Import Display.

Section DisplayFacts.

Lemma py_round_IZR (n : Z) : py_round (IZR n) = n.
Proof.
  unfold py_round. rewrite ZfloorZ.
  destruct (Rlt_dec (IZR n - IZR n) (1 / 2)); [reflexivity | lra].
Qed.

Lemma py_round_ge (n : Z) (x : R) : IZR n <= x -> (n <= py_round x)%Z.
Proof.
  intros Hx. pose proof (Zfloor_lub n x Hx) as Hf. unfold py_round.
  destruct (Rlt_dec (x - IZR (Zfloor x)) (1 / 2)); [exact Hf|].
  destruct (Rlt_dec (1 / 2) (x - IZR (Zfloor x))); [lia|].
  destruct (Z.even (Zfloor x)); lia.
Qed.

Lemma Rmin_pos (a b : R) : 0 < a -> 0 < b -> 0 < Rmin a b.
Proof. intros Ha Hb. unfold Rmin. destruct (Rle_dec a b); assumption. Qed.

Lemma scaled_size_ge (n : Z) (sp m : R) :
  (0 <= n)%Z -> 0 < m -> m <= sp -> (n <= py_round (IZR n * (sp / m)))%Z.
Proof.
  intros Hn Hm Hsp. apply py_round_ge.
  assert (1 <= sp / m).
  { apply (Rmult_le_reg_r m); [exact Hm|].
    replace (sp / m * m) with sp by (field; lra). lra. }
  pose proof (IZR_le 0 n Hn). nra.
Qed.

(** X15. Resampling to isotropic spacing never reduces the number of
    pixels along an axis, and an axis whose spacing is already the smaller
    one keeps its size exactly. *)
Theorem isotropic_grid_never_shrinks (original_size : Z * Z) (original_spacing : R * R) :
  0 < fst original_spacing -> 0 < snd original_spacing ->
  (0 <= fst original_size)%Z -> (0 <= snd original_size)%Z ->
  let min_spacing := Rmin (fst original_spacing) (snd original_spacing) in
  let new_size := snd (isotropic_grid original_size original_spacing) in
  (fst original_size <= fst new_size)%Z /\
  (snd original_size <= snd new_size)%Z /\
  (fst original_spacing = min_spacing -> fst new_size = fst original_size) /\
  (snd original_spacing = min_spacing -> snd new_size = snd original_size) /\
  (fst new_size = fst original_size \/ snd new_size = snd original_size).
Proof.
  intros H0 H1 Hs0 Hs1 min_spacing new_size.
  pose proof (Rmin_pos _ _ H0 H1) as Hm. fold min_spacing in Hm.
  assert (Hkeep : forall n sp, sp = min_spacing -> py_round (IZR n * (sp / min_spacing)) = n).
  { intros n sp ->. replace (IZR n * (min_spacing / min_spacing)) with (IZR n) by (field; lra).
    apply py_round_IZR. }
  split; [apply scaled_size_ge; [assumption | assumption | apply Rmin_l]|].
  split; [apply scaled_size_ge; [assumption | assumption | apply Rmin_r]|].
  split; [apply Hkeep|]. split; [apply Hkeep|].
  destruct (Rle_dec (fst original_spacing) (snd original_spacing)) as [Hle | Hgt].
  - left. apply Hkeep. unfold min_spacing. rewrite Rmin_left by exact Hle. reflexivity.
  - right. apply Hkeep. unfold min_spacing. rewrite Rmin_right by lra. reflexivity.
Qed.

Lemma py_int_half (d : Z) : (0 <= d)%Z -> py_int (IZR d / 2) = (d / 2)%Z.
Proof.
  intros Hd. unfold py_int.
  pose proof (IZR_le 0 d Hd) as Hd'.
  destruct (Rle_dec 0 (IZR d / 2)) as [_ | Hneg]; [|exfalso; apply Hneg; lra].
  apply Zfloor_eq.
  pose proof (Z.div_mod d 2 ltac:(lia)) as Hdm.
  pose proof (Z.mod_pos_bound d 2 ltac:(lia)) as [Hr0 Hr1].
  assert (HdR : IZR d = 2 * IZR (d / 2) + IZR (d mod 2))
    by (rewrite Hdm at 1; rewrite plus_IZR, mult_IZR; reflexivity).
  pose proof (IZR_le 0 (d mod 2) Hr0) as Hr0'.
  pose proof (IZR_le (d mod 2) 1 ltac:(lia)) as Hr1'.
  lra.
Qed.

(** X16. For an image of at least one slice the index [int(depth / 2)]
    used for display equals [depth // 2] and is a valid slice index; the
    slice [depth // 2 : depth // 2 + 1] taken for the slice-based
    initialisation contains exactly that one slice. *)
Theorem middle_index_in_range (depth : Z) :
  (1 <= depth)%Z ->
  middle_index depth = (depth / 2)%Z /\
  (0 <= middle_index depth < depth)%Z /\
  py_slice_len (depth / 2) (depth / 2 + 1) depth = 1%Z.
Proof.
  intros Hd. unfold middle_index. rewrite py_int_half by lia.
  pose proof (Z.div_mod depth 2 ltac:(lia)) as Hdm.
  pose proof (Z.mod_pos_bound depth 2 ltac:(lia)) as [Hr0 Hr1].
  split; [reflexivity|]. split; [lia|]. unfold py_slice_len. lia.
Qed.

End DisplayFacts.

(** ** Segmentation: edge voxels, physical points and the label overlay *)

Import Segmentation.

Section SegmentationFacts.

Implicit Types (g : image_geometry) (Dinv : mat3) (roi : roi_t) (e v : index3).

Lemma itk_round_IZR (n : Z) : itk_round (IZR n) = n.
Proof. unfold itk_round. apply Zfloor_eq. lra. Qed.

Lemma index3_eqb_eq (i j : index3) : index3_eqb i j = true <-> i = j.
Proof.
  destruct i as [[i0 i1] i2], j as [[j0 j1] j2]. unfold index3_eqb.
  rewrite !andb_true_iff, !Z.eqb_eq. split.
  - intros [[-> ->] ->]. reflexivity.
  - intros H. injection H as -> -> ->. auto.
Qed.

(** An index of the cropped image, sent to physical space and read back
    in the original image, is the index shifted by the start of the
    region. *)
Lemma crop_index_transfer g Dinv roi e :
  inverse_of Dinv (direction g) -> positive_spacing g ->
  TransformPhysicalPointToIndex g Dinv
    (TransformIndexToPhysicalPoint (crop_geometry g roi) e)
  = index_add e (roi_start roi).
Proof.
  intros Hinv Hsp.
  destruct g as [[[o0 o1] o2] [[sp0 sp1] sp2] D [[s0 s1] s2]].
  destruct roi as [[[a0 b0] [a1 b1]] [a2 b2]]. destruct e as [[e0 e1] e2].
  unfold positive_spacing in Hsp. cbn [spacing] in Hsp. destruct Hsp as (H0 & H1 & H2).
  cbn [direction] in Hinv.
  unfold TransformPhysicalPointToIndex, TransformIndexToPhysicalPoint,
    TransformContinuousIndexToPhysicalPoint, crop_geometry, roi_start, index_add.
  cbn [origin spacing direction size index_to_vec vmul].
  assert (Hlin :
    vminus
      (vadd (vadd (o0, o1, o2) (mat_vec D (sp0 * IZR a0, sp1 * IZR a1, sp2 * IZR a2)))
         (mat_vec D (sp0 * IZR e0, sp1 * IZR e1, sp2 * IZR e2)))
      (o0, o1, o2)
    = mat_vec D (sp0 * IZR (e0 + a0), sp1 * IZR (e1 + a1), sp2 * IZR (e2 + a2))).
  { destruct D as [[[[d00 d01] d02] [[d10 d11] d12]] [[d20 d21] d22]].
    cbn [mat_vec vdot vadd vminus]. rewrite !plus_IZR. apply vec3_eq; ring. }
  unfold TransformIndexToPhysicalPoint, TransformContinuousIndexToPhysicalPoint.
  cbn [origin spacing direction size index_to_vec vmul].
  rewrite Hlin, Hinv. cbn [vdiv].
  replace (sp0 * IZR (e0 + a0) / sp0) with (IZR (e0 + a0)) by (field; lra).
  replace (sp1 * IZR (e1 + a1) / sp1) with (IZR (e1 + a1)) by (field; lra).
  replace (sp2 * IZR (e2 + a2) / sp2) with (IZR (e2 + a2)) by (field; lra).
  rewrite !itk_round_IZR. reflexivity.
Qed.

Lemma wrap_index_in_bounds (sz i : index3) :
  in_bounds sz i = true -> wrap_index sz i = i.
Proof.
  destruct sz as [[s0 s1] s2], i as [[i0 i1] i2]. unfold in_bounds, wrap_index.
  intros H. repeat (apply andb_prop in H; destruct H as [H ?]).
  destruct (Z.ltb_spec i0 0), (Z.ltb_spec i1 0), (Z.ltb_spec i2 0); try reflexivity; lia.
Qed.

Lemma mark_fold g Dinv (points : list vec3) :
  forall (image : label_image),
  Forall (fun p => in_bounds (size g) (TransformPhysicalPointToIndex g Dinv p) = true)
    points ->
  exists edge_label,
    Initialization.foldM
      (fun edge_label point =>
         set_pixel (size g) edge_label (TransformPhysicalPointToIndex g Dinv point) 255%Z)
      points image = inr edge_label /\
    forall v, edge_label v
              = if existsb (fun p => index3_eqb v (TransformPhysicalPointToIndex g Dinv p))
                     points
                then 255%Z else image v.
Proof.
  induction points as [|p points IH]; intros image Hin.
  - exists image. split; [reflexivity|]. intros v. reflexivity.
  - inversion Hin as [|? ? Hp Hrest]; subst.
    cbn [Initialization.foldM]. unfold set_pixel at 1. cbv zeta.
    rewrite (wrap_index_in_bounds _ _ Hp), Hp. cbn [bind ret].
    destruct (IH (fun j => if index3_eqb j (TransformPhysicalPointToIndex g Dinv p)
                           then 255%Z else image j) Hrest) as (edge_label & Hrun & Hval).
    exists edge_label. split; [exact Hrun|]. intros v. rewrite Hval. cbn [existsb].
    destruct (index3_eqb v (TransformPhysicalPointToIndex g Dinv p));
      destruct (existsb _ points); reflexivity.
Qed.

(** X17. Edges found in the cropped image are transferred to the original
    image through physical space: for a region starting inside the image,
    when every shifted index lies inside the original image, the loop
    completes and labels exactly the voxels
    [e + start of the region] for the edge indices [e] of the cropped
    image; every other voxel stays 0. *)
Theorem mark_edges_transfers_crop g Dinv roi (edges : list index3) :
  inverse_of Dinv (direction g) -> positive_spacing g ->
  in_bounds (size g) (roi_start roi) = true ->
  Forall (fun e => in_bounds (size g) (index_add e (roi_start roi)) = true) edges ->
  exists edge_label,
    mark_edges g Dinv (map (TransformIndexToPhysicalPoint (crop_geometry g roi)) edges)
    = inr edge_label /\
    forall v,
      (edge_label v = 255%Z <-> exists e, In e edges /\ v = index_add e (roi_start roi)) /\
      (edge_label v = 255%Z \/ edge_label v = 0%Z).
Proof.
  intros Hinv Hsp _ Hin.
  destruct (mark_fold g Dinv
              (map (TransformIndexToPhysicalPoint (crop_geometry g roi)) edges) blank)
    as (edge_label & Hrun & Hval).
  { rewrite Forall_map. eapply Forall_impl; [exact Hin|]. intros e He. cbn.
    rewrite crop_index_transfer by assumption. exact He. }
  exists edge_label. split; [exact Hrun|]. intros v. rewrite Hval.
  destruct (existsb _ _) eqn:Hex.
  - split; [|left; reflexivity]. split; [intros _|reflexivity].
    apply existsb_exists in Hex. destruct Hex as (p & Hp & Heq).
    apply in_map_iff in Hp. destruct Hp as (e & <- & He).
    rewrite crop_index_transfer in Heq by assumption.
    apply index3_eqb_eq in Heq. eauto.
  - split; [|right; reflexivity]. unfold blank. split; [discriminate|].
    intros (e & He & ->). exfalso.
    assert (Htrue : existsb
              (fun p => index3_eqb (index_add e (roi_start roi))
                          (TransformPhysicalPointToIndex g Dinv p))
              (map (TransformIndexToPhysicalPoint (crop_geometry g roi)) edges) = true).
    { apply existsb_exists. eexists. split; [apply in_map, He|].
      rewrite crop_index_transfer by assumption. apply index3_eqb_eq. reflexivity. }
    congruence.
Qed.

Lemma zip3_unzip {A B C : Type} (l : list (A * B * C)) :
  zip3 (map (fun h => fst (fst h)) l) (map (fun h => snd (fst h)) l) (map snd l) = l.
Proof.
  unfold zip3. induction l as [|[[a b] c] l IH]; [reflexivity|].
  cbn [map zip zip_with fst snd]. f_equal. exact IH.
Qed.

Lemma elem_of_concat {B : Type} (b : B) (ls : list (list B)) :
  b ∈ concat ls <-> exists l, b ∈ l /\ l ∈ ls.
Proof.
  rewrite list_elem_of_In, in_concat. split.
  - intros (l & Hl & Hb). exists l. rewrite !list_elem_of_In. auto.
  - intros (l & Hb & Hl). exists l. rewrite <- !list_elem_of_In. auto.
Qed.

Lemma NoDup_concat_imap {A B : Type} (f : nat -> A -> list B) (l : list A) :
  (forall i x, NoDup (f i x)) ->
  (forall i j x y b, b ∈ f i x -> b ∈ f j y -> i = j) ->
  NoDup (concat (imap f l)).
Proof.
  revert f. induction l as [|a l IH]; intros f Hnd Hdisj; [constructor|].
  cbn [imap concat]. apply NoDup_app. split; [apply Hnd|]. split.
  - intros b Hb Hin. apply elem_of_concat in Hin. destruct Hin as (k & Hbk & Hk).
    apply elem_of_lookup_imap in Hk. destruct Hk as (j & y & -> & _).
    pose proof (Hdisj _ _ _ _ _ Hb Hbk). discriminate.
  - apply IH.
    + intros i x. apply Hnd.
    + intros i j x y b Hi Hj. pose proof (Hdisj _ _ _ _ _ Hi Hj). congruence.
Qed.

Lemma hits_spec (arr : list (list (list R))) (z y x : nat) :
  (z, y, x) ∈ hits arr <->
  exists plane row, arr !! z = Some plane /\ plane !! y = Some row /\ row !! x = Some 1.
Proof.
  unfold hits. rewrite elem_of_concat. split.
  - intros (k & Hk & Hin). apply elem_of_lookup_imap in Hin.
    destruct Hin as (z' & plane & -> & Hplane).
    apply elem_of_concat in Hk. destruct Hk as (k & Hk & Hin).
    apply elem_of_lookup_imap in Hin. destruct Hin as (y' & row & -> & Hrow).
    apply elem_of_concat in Hk. destruct Hk as (k & Hk & Hin).
    apply elem_of_lookup_imap in Hin. destruct Hin as (x' & v & -> & Hv).
    destruct (Req_dec_T v 1) as [-> | _]; [|apply elem_of_nil in Hk; contradiction].
    apply list_elem_of_singleton in Hk. injection Hk as -> -> ->. eauto.
  - intros (plane & row & Hplane & Hrow & Hv).
    eexists. split; [|apply (elem_of_lookup_imap_2 _ _ _ _ Hplane)].
    apply elem_of_concat. eexists. split; [|apply (elem_of_lookup_imap_2 _ _ _ _ Hrow)].
    apply elem_of_concat. eexists. split; [|apply (elem_of_lookup_imap_2 _ _ _ _ Hv)].
    cbn. destruct (Req_dec_T 1 1); [|congruence]. apply list_elem_of_singleton. reflexivity.
Qed.

Lemma hits_NoDup (arr : list (list (list R))) : NoDup (hits arr).
Proof.
  unfold hits. apply NoDup_concat_imap.
  - intros z plane. apply NoDup_concat_imap.
    + intros y row. apply NoDup_concat_imap.
      * intros x v. destruct (Req_dec_T v 1); [apply NoDup_singleton | constructor].
      * intros i j v w b Hi Hj.
        destruct (Req_dec_T v 1); [|apply elem_of_nil in Hi; contradiction].
        destruct (Req_dec_T w 1); [|apply elem_of_nil in Hj; contradiction].
        apply list_elem_of_singleton in Hi, Hj. congruence.
    + intros i j r r' b Hi Hj.
      apply elem_of_concat in Hi, Hj.
      destruct Hi as (k & Hk & Hin), Hj as (k' & Hk' & Hin').
      apply elem_of_lookup_imap in Hin, Hin'.
      destruct Hin as (x & v & -> & _), Hin' as (x' & v' & -> & _).
      destruct (Req_dec_T v 1); [|apply elem_of_nil in Hk; contradiction].
      destruct (Req_dec_T v' 1); [|apply elem_of_nil in Hk'; contradiction].
      apply list_elem_of_singleton in Hk, Hk'. congruence.
  - intros i j pl pl' b Hi Hj.
    apply elem_of_concat in Hi, Hj.
    destruct Hi as (k & Hk & Hin), Hj as (k' & Hk' & Hin').
    apply elem_of_lookup_imap in Hin, Hin'.
    destruct Hin as (y & row & -> & _), Hin' as (y' & row' & -> & _).
    apply elem_of_concat in Hk, Hk'.
    destruct Hk as (k & Hk & Hin), Hk' as (k' & Hk' & Hin').
    apply elem_of_lookup_imap in Hin, Hin'.
    destruct Hin as (x & v & -> & _), Hin' as (x' & v' & -> & _).
    destruct (Req_dec_T v 1); [|apply elem_of_nil in Hk; contradiction].
    destruct (Req_dec_T v' 1); [|apply elem_of_nil in Hk'; contradiction].
    apply list_elem_of_singleton in Hk, Hk'. congruence.
Qed.

Lemma edge_indices_eq (arr : list (list (list R))) :
  edge_indices arr
  = map (fun zyx => let '(z, y, x) := zyx in (Z.of_nat x, Z.of_nat y, Z.of_nat z))
      (hits arr).
Proof. unfold edge_indices, np_where3. rewrite zip3_unzip. reflexivity. Qed.

(** X18. The edge cell produces exactly one physical point per voxel of
    the edge array that equals 1: zipping the three index arrays of
    [np.where] pairs up the coordinates of the same voxel, the access order
    (z, y, x) of the array is turned into the index (x, y, z), an index
    occurs in the list exactly when its voxel is an edge voxel, and no
    index occurs twice. *)
Theorem edge_points_one_per_edge_voxel (edges : image_geometry)
    (arr : list (list (list R))) :
  physical_points_of edges arr
  = map (fun zyx => let '(z, y, x) := zyx in
           TransformIndexToPhysicalPoint edges (Z.of_nat x, Z.of_nat y, Z.of_nat z))
      (hits arr) /\
  (forall x y z : nat,
     In (Z.of_nat x, Z.of_nat y, Z.of_nat z) (edge_indices arr) <->
     exists plane row, arr !! z = Some plane /\ plane !! y = Some row /\ row !! x = Some 1) /\
  NoDup (edge_indices arr) /\
  length (physical_points_of edges arr) = length (hits arr).
Proof.
  split; [|split; [|split]].
  - unfold physical_points_of. rewrite edge_indices_eq, map_map.
    apply map_ext. intros [[z y] x]. reflexivity.
  - intros x y z. rewrite edge_indices_eq, <- hits_spec, <- list_elem_of_In.
    rewrite list_elem_of_fmap. split.
    + intros ([[z' y'] x'] & Heq & Hin). injection Heq as Hx Hy Hz.
      apply Nat2Z.inj in Hx, Hy, Hz. subst. exact Hin.
    + intros Hin. exists (z, y, x). split; [reflexivity | exact Hin].
  - rewrite edge_indices_eq. apply NoDup_fmap_2; [|apply hits_NoDup].
    intros [[z y] x] [[z' y'] x'] Heq. injection Heq as Hx Hy Hz.
    apply Nat2Z.inj in Hx, Hy, Hz. subst. reflexivity.
  - unfold physical_points_of. rewrite length_map, edge_indices_eq, length_map.
    reflexivity.
Qed.

End SegmentationFacts.

(** ** Registration Errors notebook: copies, biases and FLE values *)

Import ErrorsNotebook.

Section ErrorsNotebookFacts.

Implicit Types (h : heap) (l ideal : pylist) (b p q : point2) (r : list point2).

Lemma read_cons h (a : nat) l :
  read h (a :: l)
  = match h !! a with Some p => p :: read h l | None => read h l end.
Proof. reflexivity. Qed.

Lemma read_Forall2 h l : valid h l -> Forall2 (fun a p => h !! a = Some p) l (read h l).
Proof.
  intros [_ Hv]. induction Hv as [|a l Ha _ IH]; [constructor|].
  rewrite read_cons. destruct (h !! a) as [p|] eqn:Hp.
  - constructor; assumption.
  - apply lookup_ge_None in Hp. lia.
Qed.

Lemma read_length h l : valid h l -> length (read h l) = length l.
Proof. intros Hv. symmetry. apply (Forall2_length _ _ _ (read_Forall2 h l Hv)). Qed.

Lemma read_app_l h r l : valid h l -> read (h ++ r) l = read h l.
Proof.
  intros [_ Hv]. induction Hv as [|a l Ha _ IH]; [reflexivity|].
  rewrite !read_cons. rewrite lookup_app_l by exact Ha.
  rewrite IH. reflexivity.
Qed.

Lemma read_fresh r : forall h, read (h ++ r) (seq (length h) (length r)) = r.
Proof.
  induction r as [|p r IH]; intros h; [reflexivity|].
  cbn [length seq]. rewrite read_cons.
  rewrite list_lookup_middle by reflexivity. f_equal.
  replace (h ++ p :: r) with ((h ++ [p]) ++ r) by (rewrite <- app_assoc; reflexivity).
  replace (S (length h)) with (length (h ++ [p])) by (rewrite length_app; simpl; lia).
  apply IH.
Qed.







Lemma Rsum_replicate (n : nat) (v : R) : Rsum (replicate n v) = INR n * v.
Proof.
  induction n as [|n IH]; [simpl; ring|].
  rewrite S_INR. cbn [replicate Rsum]. rewrite IH. ring.
Qed.

Lemma mean_replicate (n : nat) (v : R) : mean (replicate (S n) v) = v.
Proof.
  unfold mean. rewrite Rsum_replicate, length_replicate.
  pose proof (pos_INR n). rewrite S_INR. field. lra.
Qed.

Lemma fold_Rmin_replicate (n : nat) (v : R) : fold_left Rmin (replicate n v) v = v.
Proof.
  induction n as [|n IH]; [reflexivity|].
  cbn [replicate fold_left]. rewrite Rmin_left by lra. exact IH.
Qed.

Lemma fold_Rmax_replicate (n : nat) (v : R) : fold_left Rmax (replicate n v) v = v.
Proof.
  induction n as [|n IH]; [reflexivity|].
  cbn [replicate fold_left]. rewrite Rmax_left by lra. exact IH.
Qed.

(** The statistics of the all-zero FLE values of the ideal data. *)
Lemma FLE_information_zeros (n : nat) :
  FLE_information_of (replicate (S n) 0) = inr (0, 0, 0, 0, replicate (S n) 0).
Proof.
  change (FLE_information_of (replicate (S n) 0))
    with (@inr exn _ (mean (replicate (S n) 0), std (replicate (S n) 0),
                      list_min (replicate (S n) 0), list_max (replicate (S n) 0),
                      replicate (S n) 0)).
  assert (Hstd : std (replicate (S n) 0) = 0).
  { unfold std. rewrite mean_replicate.
    replace (map (fun x => (x - 0) ^ 2) (replicate (S n) 0)) with (replicate (S n) 0).
    - rewrite mean_replicate. apply sqrt_0.
    - generalize (S n). intros k. induction k as [|k IH]; [reflexivity|].
      cbn [replicate map]. rewrite <- IH. f_equal. ring. }
  rewrite mean_replicate, Hstd. unfold list_min, list_max. cbn [replicate].
  rewrite fold_Rmin_replicate, fold_Rmax_replicate. reflexivity.
Qed.

(** X21. The cell of the ideal data and the outlier.  With no fiducial
    at all it raises the [ValueError] of [np.min] on the empty FLE list,
    before the outlier is reached; with one to three fiducials the
    statistics are computed and the access to the fourth fiducial raises
    [IndexError]; with four or more the statistics of the ideal data are
    all zero, the ideal fiducials are untouched, only the fourth copied
    fiducial is replaced by the outlier, and the only non-zero FLE value
    is the distance between the outlier and the ideal position of the
    fourth fiducial. *)
Theorem outlier_cell_spec (outlier_fiducial : point2) h ideal :
  valid h ideal ->
  (ideal = [] -> outlier_cell outlier_fiducial h ideal = inl ValueError) /\
  ((1 <= length ideal <= 3)%nat ->
   outlier_cell outlier_fiducial h ideal = inl IndexError) /\
  (forall p3, read h ideal !! 3%nat = Some p3 ->
   exists h' moving_fiducials,
     outlier_cell outlier_fiducial h ideal
     = inr (h', moving_fiducials, (0, 0, 0, 0),
            <[3%nat := distance2 outlier_fiducial p3]> (replicate (length ideal) 0)) /\
     read h' ideal = read h ideal /\
     read h' moving_fiducials = <[3%nat := outlier_fiducial]> (read h ideal)).
Proof.
  intros Hv. pose proof (read_length h ideal Hv) as Hlen.
  unfold outlier_cell, deepcopy. rewrite length_seq, Hlen.
  split; [|split].
  - intros ->. reflexivity.
  - intros [Hpos Hshort]. destruct (length ideal) as [|n] eqn:Hn; [lia|].
    rewrite FLE_information_zeros. cbn [bind].
    rewrite lookup_seq_ge by lia. reflexivity.
  - intros p3 Hp3. pose proof (lookup_lt_Some _ _ _ Hp3) as H3.
    destruct (length ideal) as [|n] eqn:Hn; [lia|].
    rewrite FLE_information_zeros. cbn [bind].
    rewrite lookup_seq_lt by lia.
    rewrite lookup_app_r by lia.
    replace (length h + 3 - length h)%nat with 3%nat by lia. rewrite Hp3.
    eexists. eexists. split; [reflexivity|].
    rewrite insert_app_r. split.
    + apply read_app_l. exact Hv.
    + replace (S n) with (length (<[3%nat := outlier_fiducial]> (read h ideal)))
        by (rewrite length_insert; exact Hlen).
      apply read_fresh.
Qed.

End ErrorsNotebookFacts.

(** ** R notebook: output files *)

Import ROutput.

Section ROutputFacts.

Context {image transform : Type}.
Variable resample_execute : transform -> image -> image -> image.

Implicit Types (fs : gmap string (file_content image transform)) (prefix name : string).

Lemma string_length_append (a b : string) :
  String.length (String.append a b) = (String.length a + String.length b)%nat.
Proof. induction a as [|c a IH]; simpl; [reflexivity | rewrite IH; reflexivity]. Qed.

Lemma append_same_length (a : string) : forall (b c d : string),
  String.length a = String.length b ->
  String.append a c = String.append b d -> a = b /\ c = d.
Proof.
  induction a as [|x a IH]; intros [|y b] c d Hlen Heq; simpl in *; try discriminate.
  - auto.
  - injection Heq as -> Heq. injection Hlen as Hlen.
    destruct (IH b c d Hlen Heq) as [-> ->]. auto.
Qed.

Lemma mha_is_not_tfm prefix prefix' : paste0 prefix ".mha" <> paste0 prefix' ".tfm".
Proof.
  unfold paste0. intros Heq.
  assert (Hlen : String.length prefix = String.length prefix').
  { apply (f_equal String.length) in Heq. rewrite !string_length_append in Heq.
    simpl in Heq. lia. }
  destruct (append_same_length _ _ _ _ Hlen Heq) as [_ Hext]. discriminate.
Qed.

Lemma paste0_suffix_inj prefix prefix' (ext : string) :
  paste0 prefix ext = paste0 prefix' ext -> prefix = prefix'.
Proof.
  unfold paste0. intros Heq.
  assert (Hlen : String.length prefix = String.length prefix').
  { apply (f_equal String.length) in Heq. rewrite !string_length_append in Heq. lia. }
  apply (append_same_length _ _ _ _ Hlen Heq).
Qed.

Lemma save_transform_and_image_two_files_aux
    (t : transform) (fixed_image moving_image : image) prefix fs :
  save_transform_and_image resample_execute t fixed_image moving_image prefix fs
    !! paste0 prefix ".mha"
  = Some (ImageFile (resample_execute t fixed_image moving_image)) /\
  save_transform_and_image resample_execute t fixed_image moving_image prefix fs
    !! paste0 prefix ".tfm" = Some (TransformFile t).
Proof.
  unfold save_transform_and_image, WriteImage, WriteTransform. split.
  - rewrite lookup_insert_ne by (intros H; symmetry in H; exact (mha_is_not_tfm _ _ H)).
    apply lookup_insert_eq.
  - apply lookup_insert_eq.
Qed.

Lemma save_transform_and_image_others_aux
    (t : transform) (fixed_image moving_image : image) prefix fs name :
  name <> paste0 prefix ".mha" -> name <> paste0 prefix ".tfm" ->
  save_transform_and_image resample_execute t fixed_image moving_image prefix fs !! name
  = fs !! name.
Proof.
  intros Hmha Htfm. unfold save_transform_and_image, WriteImage, WriteTransform.
  rewrite lookup_insert_ne by congruence. apply lookup_insert_ne. congruence.
Qed.

(** X23. One call of [save_transform_and_image] leaves both of its files
    readable, the image under [prefix.mha] and the transform under
    [prefix.tfm] (the second write never replaces the first), and changes
    no other file. *)
Theorem save_transform_and_image_writes_two_files
    (t : transform) (fixed_image moving_image : image) prefix fs :
  let fs' := save_transform_and_image resample_execute t fixed_image moving_image prefix fs in
  fs' !! paste0 prefix ".mha"
  = Some (ImageFile (resample_execute t fixed_image moving_image)) /\
  fs' !! paste0 prefix ".tfm" = Some (TransformFile t) /\
  forall name, name <> paste0 prefix ".mha" -> name <> paste0 prefix ".tfm" ->
    fs' !! name = fs !! name.
Proof.
  intros fs'. unfold fs'.
  destruct (save_transform_and_image_two_files_aux t fixed_image moving_image prefix fs)
    as (Himg & Htfm).
  split; [exact Himg|]. split; [exact Htfm|].
  intros name. apply save_transform_and_image_others_aux.
Qed.

(** X24. Calls with different prefixes do not disturb each other: after
    saving under [prefix] and then under another [prefix'], the two files
    of the first call are still there with their contents. *)
Theorem save_transform_and_image_distinct_prefixes
    (t t' : transform) (fixed_image moving_image fixed_image' moving_image' : image)
    prefix prefix' fs :
  prefix <> prefix' ->
  let fs' :=
    save_transform_and_image resample_execute t' fixed_image' moving_image' prefix'
      (save_transform_and_image resample_execute t fixed_image moving_image prefix fs) in
  fs' !! paste0 prefix ".mha"
  = Some (ImageFile (resample_execute t fixed_image moving_image)) /\
  fs' !! paste0 prefix ".tfm" = Some (TransformFile t).
Proof.
  intros Hne fs'.
  destruct (save_transform_and_image_two_files_aux t fixed_image moving_image prefix fs)
    as (Himg & Htfm).
  pose proof (save_transform_and_image_others_aux t' fixed_image' moving_image' prefix'
                (save_transform_and_image resample_execute t fixed_image moving_image
                   prefix fs)) as Hother.
  unfold fs'. split.
  - rewrite Hother; [exact Himg | |].
    + intros H. apply Hne. exact (paste0_suffix_inj _ _ _ H).
    + apply mha_is_not_tfm.
  - rewrite Hother; [exact Htfm | |].
    + intros H. symmetry in H. exact (mha_is_not_tfm _ _ H).
    + intros H. apply Hne. exact (paste0_suffix_inj _ _ _ H).
Qed.

End ROutputFacts.

(** ** Instances of the further properties *)

Section FurtherExamples.

Lemma enumerate_update_is_map_witness :
  enumerate_update S 5 0 [1; 2; 3]%nat = map S [1; 2; 3]%nat.
Proof.
  apply (enumerate_update_is_map S [1; 2; 3]%nat 5). simpl. lia.
Defined.

Lemma flatten_layout_witness :
  length (flatten [[1; 2; 3]; [4; 5; 6]]) = (3 * 2)%nat.
Proof.
  apply (flatten_layout [[1; 2; 3]; [4; 5; 6]] 3). repeat constructor.
Defined.

Lemma isotropic_grid_never_shrinks_witness :
  (10 <= fst (snd (isotropic_grid (10, 20)%Z (1, 2)%R)))%Z.
Proof.
  pose proof (isotropic_grid_never_shrinks (10, 20)%Z (1, 2)) as H.
  cbv zeta in H. apply H; simpl; try lra; try lia.
Defined.

Lemma middle_index_in_range_witness : middle_index 5 = (5 / 2)%Z.
Proof. apply (middle_index_in_range 5). lia. Defined.

Lemma identity3_inverse : inverse_of identity3 identity3.
Proof.
  intros [[a b] c]. unfold identity3. cbn [mat_vec vdot]. apply vec3_eq; ring.
Defined.

Lemma mark_edges_transfers_crop_witness :
  exists edge_label,
    mark_edges (Geometry (0, 0, 0) (1, 1, 2) identity3 (10, 10, 10)%Z) identity3
      (map (TransformIndexToPhysicalPoint
              (crop_geometry (Geometry (0, 0, 0) (1, 1, 2) identity3 (10, 10, 10)%Z)
                 ((2, 5), (3, 6), (1, 4))%Z))
         [(1, 1, 1)%Z])
    = inr edge_label /\
    forall v,
      (edge_label v = 255%Z <->
       exists e, In e [(1, 1, 1)%Z] /\
                 v = index_add e (roi_start ((2, 5), (3, 6), (1, 4))%Z)) /\
      (edge_label v = 255%Z \/ edge_label v = 0%Z).
Proof.
  apply (mark_edges_transfers_crop
           (Geometry (0, 0, 0) (1, 1, 2) identity3 (10, 10, 10)%Z) identity3
           ((2, 5), (3, 6), (1, 4))%Z [(1, 1, 1)%Z]).
  - exact identity3_inverse.
  - unfold positive_spacing. simpl. lra.
  - reflexivity.
  - repeat constructor.
Defined.

Lemma two_points_valid : valid [(1, 2); (3, 4)] [0; 1]%nat.
Proof.
  split.
  - apply NoDup_cons. split; [|apply NoDup_singleton].
    intros H. apply list_elem_of_singleton in H. discriminate.
  - repeat constructor.
Defined.



Lemma outlier_cell_spec_witness :
  outlier_cell (88, 22) [(1, 2); (3, 4)] [0; 1]%nat = inl IndexError.
Proof.
  pose proof (outlier_cell_spec (88, 22) [(1, 2); (3, 4)] [0; 1]%nat two_points_valid)
    as (_ & Hshort & _).
  apply Hshort. simpl. lia.
Defined.

Lemma save_transform_and_image_distinct_prefixes_witness :
  save_transform_and_image (fun (t : nat) (f m : nat) => (t + f + m)%nat) 2%nat 0%nat 0%nat
    "Output/finalAlignment-v1"
    (save_transform_and_image (fun (t : nat) (f m : nat) => (t + f + m)%nat) 1%nat 0%nat 0%nat
       "Output/initialAlignment" ∅)
    !! paste0 "Output/initialAlignment" ".tfm"
  = Some (TransformFile 1%nat).
Proof.
  apply (save_transform_and_image_distinct_prefixes
           (fun (t : nat) (f m : nat) => (t + f + m)%nat) 1%nat 2%nat 0%nat 0%nat 0%nat 0%nat
           "Output/initialAlignment" "Output/finalAlignment-v1" ∅).
  discriminate.
Defined.

End FurtherExamples.
